(** * pstore: a key-value cache with an in-memory map and per-key cache files

    A shallow embedding of the Go package [pstore] (lib.go, errors.go,
    serializable.go) and the properties of its public operations.

    The package keeps a [map[string]any] in memory and mirrors entries to
    files named [<name>_<key>.pcache] in a storage directory.  The embedding
    passes the receiver [*PersistentStorage] and the file system explicitly,
    and every operation yields an [outcome]: a normal return, a run-time
    panic, or a goroutine blocked for ever on the cache's mutex. *)

From Stdlib Require Import ZArith Lia Ascii.
From stdpp Require Import base strings list gmap fin_maps.

(** ** Go values held in an [any]

    A fragment of Go's value universe: primitives, named structs, slices,
    maps and pointers.  A pointer carries the static type of its target and
    a snapshot of the target's content; the content is an [any] because the
    target may be an interface-typed variable holding nil.  Cyclic pointer
    values are outside the fragment. *)

Inductive type : Type :=
| Tbool
| Tint
| Tstring
| Tstruct (name : string)
| Tslice (elem : type)
| Tmap (key elem : type)
| Tptr (elem : type)
| Tany.

#[warnings="-register-all"]
Inductive value : Type :=
| Vbool (b : bool)
| Vint (n : Z)
| Vstring (s : string)
| Vstruct (name : string) (fields : list (string * value))
| Vslice (elem : type) (items : list value)
| Vmap (key elem : type) (entries : list (value * value))
| Vnilptr (elem : type)
| Vptr (elem : type) (content : option value).

(** [any]: the empty interface; [None] is the nil interface. *)
Abbreviation any := (option value).

#[global] Instance type_eq_dec : EqDecision type.
Proof. solve_decision. Defined.

Definition typeof (v : value) : type :=
  match v with
  | Vbool _ => Tbool
  | Vint _ => Tint
  | Vstring _ => Tstring
  | Vstruct name _ => Tstruct name
  | Vslice elem _ => Tslice elem
  | Vmap key elem _ => Tmap key elem
  | Vnilptr elem => Tptr elem
  | Vptr elem _ => Tptr elem
  end.

(** [Type.String()], used by the [%v] verb on a [reflect.Type]. *)
Fixpoint type_String (t : type) : string :=
  match t with
  | Tbool => "bool"
  | Tint => "int"
  | Tstring => "string"
  | Tstruct name => name
  | Tslice elem => "[]" +:+ type_String elem
  | Tmap key elem => "map[" +:+ type_String key +:+ "]" +:+ type_String elem
  | Tptr elem => "*" +:+ type_String elem
  | Tany => "interface {}"
  end.

(** ** Outcomes of a call

    [S] is the state the call runs on.  A panic carries the state at the
    point of the panic, on which deferred calls still run. *)

Inductive outcome (S A : Type) : Type :=
| Returned (a : A) (st : S)
| Panicked (why : string) (st : S)
| Deadlocked (pending : option string).

Arguments Returned {S A} a st.
Arguments Panicked {S A} why st.
Arguments Deadlocked {S A} pending.

(** ** Package reflect *)

Module reflect.

Inductive Kind := Invalid | Bool | Int | String | Struct | Slice | Map | Ptr | Interface.

#[global] Instance Kind_eq_dec : EqDecision Kind.
Proof. solve_decision. Defined.

Definition Type_Kind (t : type) : Kind :=
  match t with
  | Tbool => Bool
  | Tint => Int
  | Tstring => String
  | Tstruct _ => Struct
  | Tslice _ => Slice
  | Tmap _ _ => Map
  | Tptr _ => Ptr
  | Tany => Interface
  end.

(** [reflect.TypeOf(i)]: the nil [Type] for a nil interface. *)
Definition TypeOf (i : any) : option type := typeof <$> i.

(** [reflect.ValueOf(i)]: the zero [Value] (here [None]) for a nil
    interface, whose [Kind] is [Invalid]. *)
Definition Value_Kind (i : any) : Kind :=
  match i with
  | None => Invalid
  | Some v => Type_Kind (typeof v)
  end.

Definition Kind_String (k : Kind) : string :=
  match k with
  | Invalid => "invalid"
  | Bool => "bool"
  | Int => "int"
  | String => "string"
  | Struct => "struct"
  | Slice => "slice"
  | Map => "map"
  | Ptr => "ptr"
  | Interface => "interface"
  end.

(** The text of a [*reflect.ValueError]. *)
Definition ValueError (method : string) (k : Kind) : string :=
  if bool_decide (k = Invalid) then "reflect: call of " +:+ method +:+ " on zero Value"
  else "reflect: call of " +:+ method +:+ " on " +:+ Kind_String k +:+ " Value".

(** A method call on the nil [Type]. *)
Definition panic_nil_Type : string :=
  "runtime error: invalid memory address or nil pointer dereference".
Definition panic_Type_zero : string := ValueError "reflect.Value.Type" Invalid.
Definition panic_Interface_zero : string := ValueError "reflect.Value.Interface" Invalid.
Definition panic_Set_zero : string := ValueError "reflect.Value.Set" Invalid.
Definition panic_Set_type (src dst : type) : string :=
  "reflect.Set: value of type " +:+ type_String src
  +:+ " is not assignable to type " +:+ type_String dst.

(** [reflect.ValueOf(i).Type()] *)
Definition Value_Type (i : any) : string + type :=
  match i with
  | None => inl panic_Type_zero
  | Some v => inr (typeof v)
  end.

(** [reflect.ValueOf(i).Elem().Interface()]: [Elem] of a nil pointer is
    the zero [Value], on which [Interface] panics; for a pointer with a
    target, the target's content comes back as an [any]. *)
Definition Elem_Interface (i : any) : string + any :=
  match i with
  | Some (Vptr _ content) => inr content
  | Some (Vnilptr _) => inl panic_Interface_zero
  | _ => inl (ValueError "reflect.Value.Elem" (Value_Kind i))
  end.

(** Assignability of a value of type [src] to a variable of type [dst]. *)
Definition assignable (src dst : type) : bool :=
  bool_decide (dst = Tany) || bool_decide (src = dst).

(** [reflect.ValueOf(i).Elem().Set(reflect.ValueOf(it))]: [i] with its
    target overwritten, or the panic. *)
Definition Elem_Set (i : any) (it : any) : string + any :=
  match i with
  | Some (Vptr elem _) =>
      match it with
      | None => inl panic_Set_zero
      | Some v =>
          if assignable (typeof v) elem then inr (Some (Vptr elem (Some v)))
          else inl (panic_Set_type (typeof v) elem)
      end
  | Some (Vnilptr _) => inl panic_Set_zero
  | _ => inl (ValueError "reflect.Value.Elem" (Value_Kind i))
  end.

End reflect.

(** ** Package strings *)

Module strings.

Fixpoint HasPrefix (s prefix : string) : bool :=
  match prefix, s with
  | EmptyString, _ => true
  | String c p', String d s' => if Ascii.eqb c d then HasPrefix s' p' else false
  | String _ _, EmptyString => false
  end.

Fixpoint Contains (s substr : string) : bool :=
  HasPrefix s substr ||
  match s with
  | EmptyString => false
  | String _ s' => Contains s' substr
  end.

Definition TrimPrefix (s prefix : string) : string :=
  if HasPrefix s prefix
  then String.substring (String.length prefix) (String.length s - String.length prefix) s
  else s.

Definition HasSuffix (s suffix : string) : bool :=
  HasPrefix (String.rev s) (String.rev suffix).

Definition TrimSuffix (s suffix : string) : string :=
  if HasSuffix s suffix
  then String.substring 0 (String.length s - String.length suffix) s
  else s.

End strings.

(** ** Collaborators outside the package

    The operating system's file calls, [path.Join], the gob codec behind
    serializable.go and the part of [fmt]'s directive language the package
    does not use are taken as an interface over an abstract type [FS] of
    file-system states. *)

(** An entry of a directory listing ([fs.DirEntry]). *)
Record DirEntry := { Name : string; IsDir : bool }.

(** An error of an [os] call: its text and what [os.IsNotExist] says. *)
Record PathError := { Error : string; IsNotExist : bool }.

(** A Go [error]: [None] is nil, [Some msg] an error whose [Error()] is [msg]. *)
Abbreviation error := (option string).

Class Env (FS : Type) := {
  os_ReadDir : string → FS → PathError + list DirEntry;
  os_MkdirAll : string → N → FS → option PathError * FS;
  os_WriteFile : string → list Byte.byte → N → FS → option PathError * FS;
  os_ReadFile : string → FS → PathError + list Byte.byte;
  os_RemoveAll : string → FS → option PathError * FS;
  (** whether [os.Lstat] finds the path *)
  os_Exists : string → FS → bool;
  path_Join : string → string → string;
  (** [gob.NewEncoder(w).Encode(it)]: the bytes written and the error *)
  gob_Encode : any → list Byte.byte * error;
  (** [gob.NewDecoder(r).Decode(p)] through a non-nil pointer [p] whose
      target has static type [elem] and holds [content]: the target's new
      content and the error *)
  gob_Decode : list Byte.byte → type → any → any * error;
  (** [Decode(nil)]: the next value is read and discarded *)
  gob_Discard : list Byte.byte → error;
  (** what [fmt] prints from a directive other than [%s] and [%v], or from
      an argument count that does not match, to the end of the format *)
  fmt_other : string → list string → string;
}.

(** ** Package fmt: the directives the package uses *)

Module fmt.

(** [Sprintf format args], the arguments already rendered as [%v] prints
    them.  [%s] and [%v] substitute the next argument; everything else is
    left to [other]. *)
Fixpoint Sprintf (other : string → list string → string)
    (format : string) (args : list string) : string :=
  match format with
  | EmptyString =>
      match args with
      | [] => ""
      | _ :: _ => other "" args
      end
  | String c rest =>
      if Ascii.eqb c "%"%char then
        match rest with
        | String verb rest' =>
            if Ascii.eqb verb "s"%char || Ascii.eqb verb "v"%char then
              match args with
              | a :: args' => a +:+ Sprintf other rest' args'
              | [] => other format args
              end
            else other format args
        | EmptyString => other format args
        end
      else String c (Sprintf other rest args)
  end.

End fmt.

(** ** lib.go: the cache *)

Definition MEM_ITEMS_UNLIMITED : Z := (-1)%Z.
Definition MEM_ITEMS_DEFAULT : Z := 100%Z.

Definition MemoryItemsCount (count : Z) : Z :=
  if (count <? 0)%Z then MEM_ITEMS_UNLIMITED else count.

Record PersistentStorage := {
  MaxMemItems : Z;
  ThreadSafe : bool;
  SaveToDiskOnSet : bool;
  path : string;
  name : string;
  cache : gmap string any;
  inMemory : bool;
  (** the state of [*sync.Mutex]: [true] when locked *)
  mutex : bool;
}.

Definition with_cache (ps : PersistentStorage) (c : gmap string any) : PersistentStorage :=
  {| MaxMemItems := MaxMemItems ps; ThreadSafe := ThreadSafe ps;
     SaveToDiskOnSet := SaveToDiskOnSet ps; path := path ps; name := name ps;
     cache := c; inMemory := inMemory ps; mutex := mutex ps |}.

Definition with_mutex (ps : PersistentStorage) (locked : bool) : PersistentStorage :=
  {| MaxMemItems := MaxMemItems ps; ThreadSafe := ThreadSafe ps;
     SaveToDiskOnSet := SaveToDiskOnSet ps; path := path ps; name := name ps;
     cache := cache ps; inMemory := inMemory ps; mutex := locked |}.

(** The exported fields are assignable by the caller at any time. *)
Definition with_MaxMemItems (ps : PersistentStorage) (n : Z) : PersistentStorage :=
  {| MaxMemItems := n; ThreadSafe := ThreadSafe ps;
     SaveToDiskOnSet := SaveToDiskOnSet ps; path := path ps; name := name ps;
     cache := cache ps; inMemory := inMemory ps; mutex := mutex ps |}.

Definition with_ThreadSafe (ps : PersistentStorage) (b : bool) : PersistentStorage :=
  {| MaxMemItems := MaxMemItems ps; ThreadSafe := b;
     SaveToDiskOnSet := SaveToDiskOnSet ps; path := path ps; name := name ps;
     cache := cache ps; inMemory := inMemory ps; mutex := mutex ps |}.

Definition with_SaveToDiskOnSet (ps : PersistentStorage) (b : bool) : PersistentStorage :=
  {| MaxMemItems := MaxMemItems ps; ThreadSafe := ThreadSafe ps;
     SaveToDiskOnSet := b; path := path ps; name := name ps;
     cache := cache ps; inMemory := inMemory ps; mutex := mutex ps |}.

Definition New (path name : string) : PersistentStorage :=
  {| path := path; name := name; cache := ∅;
     MaxMemItems := MEM_ITEMS_DEFAULT; inMemory := false;
     SaveToDiskOnSet := true; ThreadSafe := false; mutex := false |}.

Definition NewInMemory (name : string) : PersistentStorage :=
  {| path := ""; name := name; cache := ∅;
     MaxMemItems := MEM_ITEMS_UNLIMITED; inMemory := true;
     SaveToDiskOnSet := false; ThreadSafe := false; mutex := false |}.

Definition error_prefix : string := "pstore: ".
Definition error_read_files_failed : string := "failed to read files".
Definition error_delete_failed : string := "failed to delete".
Definition error_save_to_disk_failed : string := "failed to save".
Definition error_serialize_failed : string := "failed to serialize".
Definition error_expected_pointer : string := "expected pointer".
Definition error_key_not_found : string := "key not found".
Definition error_read_from_disk_failed : string := "failed to read from disk".
Definition error_deserialize_failed : string := "failed to deserialize".
Definition cache_ext : string := ".pcache".

(** ** Iteration over a Go map

    The order of [for k, v := range m] is unspecified and differs from one
    loop to the next.  A [seed] resolves it: with [n] entries left, the next
    one visited is entry [seed n mod n] of those left. *)

Fixpoint range_from {A} (seed : nat → nat) (n : nat) (l : list A) : list A :=
  match n with
  | O => []
  | S n' =>
      match l !! (seed n mod length l)%nat with
      | Some x => x :: range_from seed n' (delete (seed n mod length l)%nat l)
      | None => []
      end
  end.

Definition range {V} (seed : nat → nat) (m : gmap string V) : list (string * V) :=
  range_from seed (size m) (map_to_list m).

Section pstore.
Context {FS : Type} `{!Env FS}.

(** A call runs on the receiver and the file system. *)
Definition state : Type := PersistentStorage * FS.

(** *** errors.go *)

(** [s[:n]], which panics when [n] exceeds [len(s)]. *)
Definition slice_to (s : string) (n : nat) : string + string :=
  if (n <=? String.length s)%nat then inr (String.substring 0 n s)
  else inl "runtime error: slice bounds out of range".

Definition IsPStoreError (err : error) : string + bool :=
  match err with
  | None => inr false
  | Some msg =>
      match slice_to msg (String.length error_prefix) with
      | inl why => inl why
      | inr head => inr (bool_decide (head = error_prefix))
      end
  end.

Definition errorf (ps : PersistentStorage) (format : string) (args : list string) : error :=
  let prefix := fmt.Sprintf fmt_other "%s%s: " [error_prefix; name ps] in
  Some (fmt.Sprintf fmt_other (prefix +:+ format) args).

(** [IsPStoreError(err) && strings.Contains(err.Error(), marker)], the
    body shared by the [Is...] predicates. *)
Definition is_kind (marker : string) (err : error) : string + bool :=
  match IsPStoreError err with
  | inl why => inl why
  | inr false => inr false
  | inr true => inr (strings.Contains (default "" err) marker)
  end.

Definition IsReadFilesFailed := is_kind error_read_files_failed.
Definition IsDeleteFailed := is_kind error_delete_failed.
Definition IsSaveToDiskFailed := is_kind error_save_to_disk_failed.
Definition IsSerializeFailed := is_kind error_serialize_failed.
Definition IsExpectedPointer := is_kind error_expected_pointer.
Definition IsKeyNotFound := is_kind error_key_not_found.
Definition IsReadFromDiskFailed := is_kind error_read_from_disk_failed.
Definition IsDeserializeFailed := is_kind error_deserialize_failed.

(** *** serializable.go *)

Definition serialize (it : any) : list Byte.byte * error := gob_Encode it.

(** [Decode] stores through a non-nil pointer and refuses anything else
    that is not nil. *)
Definition deserialize (data : list Byte.byte) (out : any) : any * error :=
  match out with
  | None => (out, gob_Discard data)
  | Some (Vptr elem content) =>
      let '(content', err) := gob_Decode data elem content in
      (Some (Vptr elem content'), err)
  | Some (Vnilptr _) => (out, Some "gob: DecodeValue of unassignable value")
  | Some _ => (out, Some "gob: attempt to decode into a non-pointer")
  end.

(** *** The mutex and deferred calls *)

Definition mutex_Lock (st : state) : outcome state () :=
  if mutex st.1 then Deadlocked None
  else Returned () (with_mutex st.1 true, st.2).

Definition mutex_Unlock (st : state) : outcome state () :=
  if mutex st.1 then Returned () (with_mutex st.1 false, st.2)
  else Panicked "fatal error: sync: unlock of unlocked mutex" st.

(** [defer d(); body]: [d] runs when [body] returns and also while it
    panics; a deferred call that blocks keeps the function from
    returning and from finishing its panic. *)
Definition defer {A} (d : state → outcome state ()) (body : outcome state A) : outcome state A :=
  match body with
  | Returned a st =>
      match d st with
      | Returned _ st' => Returned a st'
      | Panicked why st' => Panicked why st'
      | Deadlocked pending => Deadlocked pending
      end
  | Panicked why st =>
      match d st with
      | Returned _ st' => Panicked why st'
      | Panicked why' st' => Panicked why' st'
      | Deadlocked _ => Deadlocked (Some why)
      end
  | Deadlocked pending => Deadlocked pending
  end.

(** [if ps.ThreadSafe { ps.mutex.Lock(); defer d() }; body] *)
Definition if_ThreadSafe_Lock_defer {A} (d : state → outcome state ())
    (body : state → outcome state A) (st : state) : outcome state A :=
  if ThreadSafe st.1 then
    match mutex_Lock st with
    | Returned _ st1 => defer d (body st1)
    | Panicked why st1 => Panicked why st1
    | Deadlocked pending => Deadlocked pending
    end
  else body st.

(** *** File names *)

Definition getCacheFilename (ps : PersistentStorage) (key : string) : string :=
  name ps +:+ "_" +:+ key +:+ cache_ext.

Definition getCachePath (ps : PersistentStorage) (key : string) : string :=
  path_Join (path ps) (getCacheFilename ps key).

(** *** Len *)

Definition is_cache_file (ps : PersistentStorage) (file : DirEntry) : bool :=
  strings.HasPrefix (Name file) (name ps +:+ "_") && strings.HasSuffix (Name file) cache_ext.

Fixpoint Len_loop (ps : PersistentStorage) (files : list DirEntry) (count : Z) : Z :=
  match files with
  | [] => count
  | file :: files' =>
      if IsDir file then Len_loop ps files' count
      else if is_cache_file ps file then Len_loop ps files' (count + 1)%Z
      else Len_loop ps files' count
  end.

Definition Len_body (st : state) : outcome state (Z * error) :=
  let '(ps, fs) := st in
  match os_ReadDir (path ps) fs with
  | inl err =>
      Returned ((-1)%Z, errorf ps "%s: %v" [error_read_files_failed; Error err]) st
  | inr files => Returned (Len_loop ps files 0%Z, None) st
  end.

Definition Len : state → outcome state (Z * error) :=
  if_ThreadSafe_Lock_defer mutex_Unlock Len_body.

(** *** Delete *)

Definition Delete (key : string) (st : state) : outcome state error :=
  let '(ps, fs) := st in
  let ps := with_cache ps (delete key (cache ps)) in
  if inMemory ps then Returned None (ps, fs)
  else
    match os_RemoveAll (getCachePath ps key) fs with
    | (Some err, fs') =>
        Returned (errorf ps "%s %v: %v" [error_delete_failed; key; Error err]) (ps, fs')
    | (None, fs') => Returned None (ps, fs')
    end.

(** *** Has *)

Fixpoint Has_loop (ps : PersistentStorage) (key : string) (files : list DirEntry) : bool :=
  match files with
  | [] => false
  | file :: files' =>
      if IsDir file then Has_loop ps key files'
      else if bool_decide (getCacheFilename ps key = Name file) then true
      else Has_loop ps key files'
  end.

Definition Has_body (key : string) (st : state) : outcome state (bool * error) :=
  let '(ps, fs) := st in
  match cache ps !! key with
  | Some _ => Returned (true, None) st
  | None =>
      match os_ReadDir (path ps) fs with
      | inl err =>
          Returned (false, errorf ps "%s: %v" [error_read_files_failed; Error err]) st
      | inr files => Returned (Has_loop ps key files, None) st
      end
  end.

Definition Has (key : string) : state → outcome state (bool * error) :=
  if_ThreadSafe_Lock_defer mutex_Unlock (Has_body key).

(** *** Keys *)

Fixpoint Keys_loop (ps : PersistentStorage) (files : list DirEntry) (keys : list string) : list string :=
  match files with
  | [] => keys
  | file :: files' =>
      if IsDir file then Keys_loop ps files' keys
      else if is_cache_file ps file then
        Keys_loop ps files'
          (keys ++ [strings.TrimSuffix (strings.TrimPrefix (Name file) (name ps +:+ "_")) cache_ext])
      else Keys_loop ps files' keys
  end.

(** The result is [None] for the nil slice returned with an error. *)
Definition Keys_body (st : state) : outcome state (option (list string) * error) :=
  let '(ps, fs) := st in
  match os_ReadDir (path ps) fs with
  | inl err =>
      Returned (None, errorf ps "%s: %v" [error_read_files_failed; Error err]) st
  | inr files => Returned (Some (Keys_loop ps files []), None) st
  end.

Definition Keys : state → outcome state (option (list string) * error) :=
  if_ThreadSafe_Lock_defer mutex_Unlock Keys_body.

(** *** saveToDisk and SaveToDisk *)

Definition saveToDisk (ps : PersistentStorage) (key : string) (value : any) (fs : FS) : error * FS :=
  if inMemory ps then (None, fs)
  else
    match os_MkdirAll (path ps) 493%N fs with
    | (Some err, fs1) =>
        (errorf ps "%s %v: %v" [error_save_to_disk_failed; key; Error err], fs1)
    | (None, fs1) =>
        match serialize value with
        | (_, Some err) =>
            (errorf ps "%s %v: %v" [error_serialize_failed; key; err], fs1)
        | (bytes, None) =>
            match os_WriteFile (getCachePath ps key) bytes 420%N fs1 with
            | (Some err, fs2) =>
                (errorf ps "%s %v: %v" [error_save_to_disk_failed; key; Error err], fs2)
            | (None, fs2) => (None, fs2)
            end
        end
    end.

Fixpoint SaveToDisk_loop (ps : PersistentStorage) (entries : list (string * any)) (fs : FS) : error * FS :=
  match entries with
  | [] => (None, fs)
  | (k, v) :: entries' =>
      match saveToDisk ps k v fs with
      | (Some err, fs') => (Some err, fs')
      | (None, fs') => SaveToDisk_loop ps entries' fs'
      end
  end.

Definition SaveToDisk_body (seed : nat → nat) (st : state) : outcome state error :=
  let '(ps, fs) := st in
  let '(err, fs') := SaveToDisk_loop ps (range seed (cache ps)) fs in
  Returned err (ps, fs').

Definition SaveToDisk (seed : nat → nat) (st : state) : outcome state error :=
  if SaveToDiskOnSet st.1 then Returned None st
  else if_ThreadSafe_Lock_defer mutex_Lock (SaveToDisk_body seed) st.

(** *** set and Set *)

Definition set (key : string) (value : any) (seed : nat → nat) (st : state) : outcome state error :=
  let '(ps, fs) := st in
  let ps := with_cache ps (<[key := value]> (cache ps)) in
  let '(err, fs) :=
    if SaveToDiskOnSet ps then saveToDisk ps key value fs else (None, fs) in
  match err with
  | Some _ => Returned err (ps, fs)
  | None =>
      if bool_decide (MaxMemItems ps ≠ MEM_ITEMS_UNLIMITED)
         && (Z.of_nat (size (cache ps)) >? MaxMemItems ps)%Z
      then
        match range seed (cache ps) with
        | (k, _) :: _ => Returned None (with_cache ps (delete k (cache ps)), fs)
        | [] => Returned None (ps, fs)
        end
      else Returned None (ps, fs)
  end.

(** The loop [for reflect.TypeOf(it).Kind() == reflect.Ptr { it =
    reflect.ValueOf(it).Elem().Interface() }]: the value left when the
    loop ends, or the panic that ends it. *)
Fixpoint unwrap_value (v : value) : string + any :=
  match v with
  | Vptr _ (Some target) => unwrap_value target
  | Vptr _ None => inl reflect.panic_nil_Type
  | Vnilptr _ => inl reflect.panic_Interface_zero
  | _ => inr (Some v)
  end.

Definition unwrap (it : any) : string + any :=
  match it with
  | None => inl reflect.panic_nil_Type
  | Some v => unwrap_value v
  end.

Definition Set_body (key : string) (value : any) (seed : nat → nat) (st : state) : outcome state error :=
  match unwrap value with
  | inl why => Panicked why st
  | inr it => set key it seed st
  end.

(** [Set] of the source; the name is reserved here. *)
Definition Set_ (key : string) (value : any) (seed : nat → nat) : state → outcome state error :=
  if_ThreadSafe_Lock_defer mutex_Lock (Set_body key value seed).

(** *** readFromDisk, get and Get

    [out] is passed by value; the calls give back [out] as it is when
    they end, so that the caller sees what was stored through it. *)

Definition readFromDisk (ps : PersistentStorage) (out : any) (key : string) (fs : FS) : any * error :=
  if inMemory ps then (out, errorf ps "%s %v" [error_key_not_found; key])
  else
    match os_ReadFile (getCachePath ps key) fs with
    | inl err =>
        if IsNotExist err then (out, errorf ps "%s %v" [error_key_not_found; key])
        else (out, errorf ps "%s %v: %v" [error_read_from_disk_failed; key; Error err])
    | inr bytes =>
        match deserialize bytes out with
        | (out', Some err) =>
            (out', errorf ps "%s %v: %v" [error_deserialize_failed; key; err])
        | (out', None) => (out', None)
        end
    end.

Definition get (out : any) (key : string) (st : state) : outcome state (error * any) :=
  let '(ps, fs) := st in
  if bool_decide (reflect.Value_Kind out ≠ reflect.Ptr) then
    match reflect.Value_Type out with
    | inl why => Panicked why st
    | inr t =>
        Returned (errorf ps "%s but got type %v" [error_expected_pointer; type_String t], out) st
    end
  else
    match cache ps !! key with
    | None =>
        let '(out', err) := readFromDisk ps out key fs in
        match err with
        | Some _ =>
            match reflect.Elem_Interface out' with
            | inl why => Panicked why st
            | inr it =>
                Returned (err, out') (with_cache ps (<[key := it]> (cache ps)), fs)
            end
        | None => Returned (err, out') st
        end
    | Some it =>
        match reflect.Elem_Set out it with
        | inl why => Panicked why st
        | inr out' => Returned (None, out') st
        end
    end.

Definition Get (key : string) (out : any) : state → outcome state (error * any) :=
  if_ThreadSafe_Lock_defer mutex_Lock (get out key).

End pstore.

Arguments state FS : clear implicits.

(** ** A reference environment

    A small file system in which every call succeeds unless the path it
    needs is missing, with a codec for strings and booleans.  It is the
    environment in which the operations are run on concrete inputs. *)

Module MemFS.

(** Directory path ↦ (file name ↦ content). *)
Abbreviation fs := (gmap string (gmap string (list Byte.byte))).

Definition ENOENT (op p : string) : PathError :=
  {| Error := op +:+ " " +:+ p +:+ ": no such file or directory"; IsNotExist := true |}.

(** The directory part (if the path has a slash) and the last element. *)
Fixpoint dir_base (p : string) : option string * string :=
  match p with
  | EmptyString => (None, "")
  | String c p' =>
      match dir_base p' with
      | (Some d, b) => (Some (String c d), b)
      | (None, b) => if Ascii.eqb c "/"%char then (Some "", b) else (None, String c b)
      end
  end.

Definition Join (dir file : string) : string :=
  if bool_decide (dir = "") then file else dir +:+ "/" +:+ file.

Definition lookup_file (p : string) (s : fs) : option (list Byte.byte) :=
  match dir_base p with
  | (Some d, b) => s !! d ≫= (.!! b)
  | (None, _) => None
  end.

Definition ReadDir (d : string) (s : fs) : PathError + list DirEntry :=
  if bool_decide (d = "") then inl (ENOENT "open" d)
  else
    match s !! d with
    | Some files => inr ((λ kv, {| Name := kv.1; IsDir := false |}) <$> map_to_list files)
    | None => inl (ENOENT "open" d)
    end.

Definition MkdirAll (d : string) (perm : N) (s : fs) : option PathError * fs :=
  if bool_decide (d = "") then (Some (ENOENT "mkdir" d), s)
  else
    match s !! d with
    | Some _ => (None, s)
    | None => (None, <[d := ∅]> s)
    end.

Definition WriteFile (p : string) (data : list Byte.byte) (perm : N) (s : fs) : option PathError * fs :=
  match dir_base p with
  | (Some d, b) =>
      match s !! d with
      | Some files => (None, <[d := <[b := data]> files]> s)
      | None => (Some (ENOENT "open" p), s)
      end
  | (None, _) => (Some (ENOENT "open" p), s)
  end.

Definition ReadFile (p : string) (s : fs) : PathError + list Byte.byte :=
  match lookup_file p s with
  | Some data => inr data
  | None => inl (ENOENT "open" p)
  end.

Definition RemoveAll (p : string) (s : fs) : option PathError * fs :=
  match dir_base p with
  | (Some d, b) =>
      match s !! d with
      | Some files => (None, delete p (<[d := delete b files]> s))
      | None => (None, delete p s)
      end
  | (None, _) => (None, delete p s)
  end.

Definition Exists (p : string) (s : fs) : bool :=
  bool_decide (is_Some (lookup_file p s)) || bool_decide (is_Some (s !! p)).

(** The codec: a tag byte, then the payload. *)
Definition Encode (it : any) : list Byte.byte * error :=
  match it with
  | Some (Vstring s) => (Byte.x01 :: String.list_byte_of_string s, None)
  | Some (Vbool b) => ([Byte.x02; if b then Byte.x01 else Byte.x00], None)
  | Some _ => ([], Some "gob: type not registered")
  | None => ([], Some "gob: cannot encode nil value")
  end.

Definition parse (data : list Byte.byte) : option value :=
  match data with
  | Byte.x01 :: payload => Some (Vstring (String.string_of_list_byte payload))
  | [Byte.x02; Byte.x00] => Some (Vbool false)
  | [Byte.x02; Byte.x01] => Some (Vbool true)
  | _ => None
  end.

Definition Decode (data : list Byte.byte) (elem : type) (content : any) : any * error :=
  match parse data with
  | Some v =>
      if reflect.assignable (typeof v) elem then (Some v, None)
      else (content, Some "gob: type mismatch")
  | None => (content, Some "unexpected EOF")
  end.

Definition Discard (data : list Byte.byte) : error :=
  match parse data with
  | Some _ => None
  | None => Some "unexpected EOF"
  end.

#[global] Instance env : Env fs := {|
  os_ReadDir := ReadDir;
  os_MkdirAll := MkdirAll;
  os_WriteFile := WriteFile;
  os_ReadFile := ReadFile;
  os_RemoveAll := RemoveAll;
  os_Exists := Exists;
  path_Join := Join;
  gob_Encode := Encode;
  gob_Decode := Decode;
  gob_Discard := Discard;
  fmt_other := λ format _, format;
|}.

(** A directory [d] holding the cache file of key [a] of cache [c], whose
    content is the string [x]. *)
Definition one_file : fs :=
  {[ "d" := {[ "c_a.pcache" := Byte.x01 :: String.list_byte_of_string "x" ]} ]}.

End MemFS.

(** ** Vocabulary of the properties *)

(** [mentions c s]: the character [c] occurs in [s]. *)
Fixpoint mentions (c : ascii) (s : string) : bool :=
  match s with
  | EmptyString => false
  | String d s' => Ascii.eqb d c || mentions c s'
  end.


Definition markers : list string :=
  [error_read_files_failed; error_delete_failed; error_save_to_disk_failed;
   error_serialize_failed; error_expected_pointer; error_key_not_found;
   error_read_from_disk_failed; error_deserialize_failed].

Section vocabulary.
Context {FS : Type} `{!Env FS}.

(** The errors the package creates: [raised ps marker texts err] when
    [err] comes from one of the calls of [errorf] in lib.go, made with
    the marker of that kind and with [texts] printed after it. *)
Inductive raised (ps : PersistentStorage) : string → list string → error → Prop :=
| raised_read_files e :
    raised ps error_read_files_failed [e]
      (errorf ps "%s: %v" [error_read_files_failed; e])
| raised_delete key e :
    raised ps error_delete_failed [key; e]
      (errorf ps "%s %v: %v" [error_delete_failed; key; e])
| raised_save key e :
    raised ps error_save_to_disk_failed [key; e]
      (errorf ps "%s %v: %v" [error_save_to_disk_failed; key; e])
| raised_serialize key e :
    raised ps error_serialize_failed [key; e]
      (errorf ps "%s %v: %v" [error_serialize_failed; key; e])
| raised_expected_pointer t :
    raised ps error_expected_pointer [t]
      (errorf ps "%s but got type %v" [error_expected_pointer; t])
| raised_key_not_found key :
    raised ps error_key_not_found [key]
      (errorf ps "%s %v" [error_key_not_found; key])
| raised_read_from_disk key e :
    raised ps error_read_from_disk_failed [key; e]
      (errorf ps "%s %v: %v" [error_read_from_disk_failed; key; e])
| raised_deserialize key e :
    raised ps error_deserialize_failed [key; e]
      (errorf ps "%s %v: %v" [error_deserialize_failed; key; e]).

(** An error value an operation may hand back: nil or one of the above. *)
Definition nil_or_raised (ps : PersistentStorage) (err : error) : Prop :=
  err = None ∨ ∃ marker texts, marker ∈ markers ∧ raised ps marker texts err.

(** Calls of [Set] one after the other, each returning no error: the
    state after the last one. *)
Fixpoint Set_each (calls : list (string * any * (nat → nat))) (st : state FS) : option (state FS) :=
  match calls with
  | [] => Some st
  | (key, value, seed) :: calls' =>
      match Set_ key value seed st with
      | Returned None st' => Set_each calls' st'
      | _ => None
      end
  end.

(** [returns_error st err]: some public operation called on [st]
    returns the error [err]. *)
Inductive returns_error (st : state FS) : error → Prop :=
| Set_error key value seed err st' :
    Set_ key value seed st = Returned err st' → returns_error st err
| Get_error key out err out' st' :
    Get key out st = Returned (err, out') st' → returns_error st err
| Has_error key found err st' :
    Has key st = Returned (found, err) st' → returns_error st err
| Delete_error key err st' :
    Delete key st = Returned err st' → returns_error st err
| Keys_error keys err st' :
    Keys st = Returned (keys, err) st' → returns_error st err
| Len_error count err st' :
    Len st = Returned (count, err) st' → returns_error st err
| SaveToDisk_error seed err st' :
    SaveToDisk seed st = Returned err st' → returns_error st err.

(** One step in the life of a cache: a public operation that returns, an
    assignment to the exported fields, or a change of the files made
    from outside. *)
Inductive step : state FS → state FS → Prop :=
| step_Set key value seed st err st' :
    Set_ key value seed st = Returned err st' → step st st'
| step_Get key out st r st' :
    Get key out st = Returned r st' → step st st'
| step_Has key st r st' :
    Has key st = Returned r st' → step st st'
| step_Delete key st err st' :
    Delete key st = Returned err st' → step st st'
| step_Keys st r st' :
    Keys st = Returned r st' → step st st'
| step_Len st r st' :
    Len st = Returned r st' → step st st'
| step_SaveToDisk seed st err st' :
    SaveToDisk seed st = Returned err st' → step st st'
| step_assign ps fs limit threadSafe saveOnSet :
    step (ps, fs)
      (with_SaveToDiskOnSet (with_ThreadSafe (with_MaxMemItems ps limit) threadSafe) saveOnSet, fs)
| step_files ps fs fs' :
    step (ps, fs) (ps, fs').

End vocabulary.

(** ** lib.go, the earlier revision

    [Len], [Has] and [Keys] as they were when they enumerated the in-memory
    map instead of the storage directory.  They read the map, [ThreadSafe]
    and the mutex, which the record has kept as they were. *)

Module earlier.

Section earlier.
Context {FS : Type} `{!Env FS}.

Definition Len (st : state FS) : outcome (state FS) Z :=
  Returned (Z.of_nat (size (cache st.1))) st.

Definition Has_body (key : string) (st : state FS) : outcome (state FS) bool :=
  match cache st.1 !! key with
  | Some _ => Returned true st
  | None => Returned false st
  end.

Definition Has (key : string) : state FS → outcome (state FS) bool :=
  if_ThreadSafe_Lock_defer mutex_Unlock (Has_body key).

Fixpoint Keys_loop (entries : list (string * any)) (keys : list string) : list string :=
  match entries with
  | [] => keys
  | (k, _) :: entries' => Keys_loop entries' (keys ++ [k])
  end.

Definition Keys_body (seed : nat → nat) (st : state FS) : outcome (state FS) (list string) :=
  Returned (Keys_loop (range seed (cache st.1)) []) st.

Definition Keys (seed : nat → nat) : state FS → outcome (state FS) (list string) :=
  if_ThreadSafe_Lock_defer mutex_Unlock (Keys_body seed).

End earlier.

End earlier.

(** ** More vocabulary *)

Section more_vocabulary.
Context {FS : Type} `{!Env FS}.

(** [call st st']: some public operation called on [st] returns and leaves
    [st']. *)
Inductive call : state FS → state FS → Prop :=
| call_Set key value seed st err st' :
    Set_ key value seed st = Returned err st' → call st st'
| call_Get key out st r st' :
    Get key out st = Returned r st' → call st st'
| call_Has key st r st' :
    Has key st = Returned r st' → call st st'
| call_Delete key st err st' :
    Delete key st = Returned err st' → call st st'
| call_Keys st r st' :
    Keys st = Returned r st' → call st st'
| call_Len st r st' :
    Len st = Returned r st' → call st st'
| call_SaveToDisk seed st err st' :
    SaveToDisk seed st = Returned err st' → call st st'.

(** The entries of a listing that [Len] counts and [Keys] turns into keys. *)
Definition cache_files (ps : PersistentStorage) (files : list DirEntry) : list DirEntry :=
  List.filter (λ file, negb (IsDir file) && is_cache_file ps file) files.

(** The key [Keys] reads off a file name. *)
Definition key_of (ps : PersistentStorage) (file : DirEntry) : string :=
  strings.TrimSuffix (strings.TrimPrefix (Name file) (name ps +:+ "_")) cache_ext.

End more_vocabulary.

(** * Properties *)

#[local] Arguments String.append !_ _ / : simpl nomatch.

(** ** Strings and formatting *)

Example TrimPrefix_ex : strings.TrimPrefix "ns_key.pcache" "ns_" = "key.pcache".
Proof. reflexivity. Qed.

Example TrimSuffix_ex : strings.TrimSuffix "key.pcache" ".pcache" = "key".
Proof. reflexivity. Qed.

Example Contains_ex :
  strings.Contains "pstore: c: key not found k" "key not found" = true
  ∧ strings.Contains "pstore: c: key not found k" "failed to save" = false.
Proof. split; reflexivity. Qed.

Lemma HasPrefix_nil s : strings.HasPrefix s "" = true.
Proof. by destruct s. Qed.

Lemma HasPrefix_app s t : strings.HasPrefix (s +:+ t) s = true.
Proof.
  induction s as [|c s IH]; simpl; [apply HasPrefix_nil|].
  by rewrite Ascii.eqb_refl.
Qed.

Lemma Contains_cons c s m :
  strings.Contains (String c s) m = strings.HasPrefix (String c s) m || strings.Contains s m.
Proof. reflexivity. Qed.

Lemma Contains_app_r a s m : strings.Contains s m = true → strings.Contains (a +:+ s) m = true.
Proof.
  intros Hs. induction a as [|c a IH]; simpl; [done|].
  rewrite IH. apply orb_true_r.
Qed.

Lemma Contains_app_mid a m t : strings.Contains (a +:+ m +:+ t) m = true.
Proof.
  apply Contains_app_r. destruct m as [|c m]; [by destruct t|].
  assert (strings.HasPrefix (String c m +:+ t) (String c m) = true) as H
    by apply HasPrefix_app.
  simpl in *. by rewrite H.
Qed.

Lemma HasPrefix_app_sep c a b m :
  mentions c m = false →
  strings.HasPrefix (a +:+ String c b) m = strings.HasPrefix a m.
Proof.
  revert m. induction a as [|x a IH]; intros [|d m] Hm; simpl in *; try done.
  - apply orb_false_iff in Hm as [Hd _]. by rewrite Hd.
  - apply orb_false_iff in Hm as [_ Hm]. destruct (Ascii.eqb d x); [by apply IH|done].
Qed.

(** A text that does not mention the separator [c] occurs in [a ++ c ++ b]
    exactly when it occurs in [a] or in [b]. *)
Lemma Contains_app_sep c a b m :
  mentions c m = false → m ≠ "" →
  strings.Contains (a +:+ String c b) m = strings.Contains a m || strings.Contains b m.
Proof.
  intros Hm Hne. induction a as [|x a IH].
  - destruct m as [|d m]; [done|]. simpl in *.
    apply orb_false_iff in Hm as [Hd _]. by rewrite Hd.
  - change (String x a +:+ String c b) with (String x (a +:+ String c b)).
    rewrite !Contains_cons, IH.
    change (String x (a +:+ String c b)) with (String x a +:+ String c b).
    rewrite HasPrefix_app_sep by done. by rewrite orb_assoc.
Qed.

Lemma append_nil_r s : s +:+ "" = s.
Proof. induction s; simpl; congruence. Qed.

Lemma append_assoc s t u : (s +:+ t) +:+ u = s +:+ t +:+ u.
Proof. induction s; simpl; congruence. Qed.

Lemma mentions_app c s t : mentions c (s +:+ t) = mentions c s || mentions c t.
Proof. induction s as [|d s IH]; simpl; [done|]. by rewrite IH, orb_assoc. Qed.

Lemma Sprintf_literal other lit format args :
  mentions "%" lit = false →
  fmt.Sprintf other (lit +:+ format) args = lit +:+ fmt.Sprintf other format args.
Proof.
  induction lit as [|c lit IH]; simpl; [done|].
  intros [Hc Hlit]%orb_false_iff. rewrite Hc. by rewrite IH.
Qed.

Section errors.
Context {FS : Type} `{!Env FS}.

(** With a namespace free of [%], [errorf] prints the prefix, the
    namespace, and the format with its arguments. *)
Lemma errorf_marker ps rest m args :
  mentions "%" (name ps) = false →
  errorf ps ("%s" +:+ rest) (m :: args)
  = Some ("pstore: " +:+ name ps +:+ ": " +:+ m +:+ fmt.Sprintf fmt_other rest args).
Proof.
  intros Hname. unfold errorf. f_equal.
  change (fmt.Sprintf fmt_other "%s%s: " [error_prefix; name ps])
    with ("pstore: " +:+ name ps +:+ ": " +:+ "").
  rewrite append_nil_r.
  rewrite (Sprintf_literal _ ("pstore: " +:+ name ps +:+ ": ")).
  - simpl. by rewrite !append_assoc.
  - rewrite !mentions_app, Hname. reflexivity.
Qed.

Lemma IsPStoreError_prefix s : IsPStoreError (Some ("pstore: " +:+ s)) = inr true.
Proof. unfold IsPStoreError, slice_to. simpl. by destruct s. Qed.

End errors.

Ltac unfold_markers :=
  unfold error_read_files_failed, error_delete_failed, error_save_to_disk_failed,
    error_serialize_failed, error_expected_pointer, error_key_not_found,
    error_read_from_disk_failed, error_deserialize_failed in *.

(** Walk through a message: literal text is searched by computation, and a
    variable text is split off at the colon that follows it. *)
Ltac search_message :=
  repeat (simpl; rewrite ?append_nil_r; try rewrite Contains_app_sep by done);
  repeat match goal with
    | |- context [strings.Contains ?x ?m] => destruct (strings.Contains x m)
    end;
  reflexivity.

Section error_kinds.
Context {FS : Type} `{!Env FS}.

Lemma raised_name ps ps' m texts err :
  name ps = name ps' → raised ps m texts err → raised ps' m texts err.
Proof.
  intros Hn Hr.
  assert (∀ f a, errorf ps f a = errorf ps' f a) as E
    by (intros; unfold errorf; by rewrite Hn).
  destruct Hr; rewrite E; constructor.
Qed.

(** What each predicate says of each error of the package. *)
Lemma is_kind_raised ps m0 texts err m :
  mentions "%" (name ps) = false →
  raised ps m0 texts err →
  m ∈ markers →
  is_kind m err
  = inr (bool_decide (m = m0) || strings.Contains (name ps) m
         || existsb (λ t, strings.Contains t m) texts).
Proof.
  intros Hname Hr Hm.
  destruct Hr.
  all: match goal with
       | |- context [errorf ?p ?f (?m0 :: ?args)] =>
           let rest := eval vm_compute in (String.substring 2 (String.length f) f) in
           rewrite (errorf_marker p rest m0 args Hname)
       end.
  all: unfold is_kind; rewrite IsPStoreError_prefix; f_equal.
  all: unfold markers in Hm; repeat (apply elem_of_cons in Hm as [->|Hm]);
    [..|by apply elem_of_nil in Hm].
  all: unfold_markers; rewrite ?append_nil_r.
  all: search_message.
Qed.

End error_kinds.

(** ** The lock around the read-only operations *)

Lemma with_mutex_unlock ps : mutex ps = false → with_mutex (with_mutex ps true) false = ps.
Proof. destruct ps; simpl; by intros ->. Qed.

Section operations.
Context {FS : Type} `{!Env FS}.

Lemma errorf_name ps ps' format args :
  name ps = name ps' → errorf ps format args = errorf ps' format args.
Proof. intros Hn. unfold errorf. by rewrite Hn. Qed.

Lemma Has_loop_name ps ps' key files :
  name ps = name ps' → Has_loop ps key files = Has_loop ps' key files.
Proof.
  intros Hn. induction files as [|file files IH]; simpl; [done|].
  unfold getCacheFilename. by rewrite IH, Hn.
Qed.

Lemma Len_loop_name ps ps' files count :
  name ps = name ps' → Len_loop ps files count = Len_loop ps' files count.
Proof.
  intros Hn. revert count. induction files as [|file files IH]; intros count; simpl; [done|].
  unfold is_cache_file. by rewrite !IH, Hn.
Qed.

Lemma Keys_loop_name ps ps' files keys :
  name ps = name ps' → Keys_loop ps files keys = Keys_loop ps' files keys.
Proof.
  intros Hn. revert keys. induction files as [|file files IH]; intros keys; simpl; [done|].
  unfold is_cache_file. by rewrite !IH, Hn.
Qed.

(** [Has], [Len] and [Keys] take the lock and give it back: on a cache
    whose lock is free they are their bodies. *)
Lemma Has_unlocked key ps fs :
  (ThreadSafe ps = true → mutex ps = false) →
  Has key (ps, fs) = Has_body key (ps, fs).
Proof.
  intros Hfree. unfold Has, if_ThreadSafe_Lock_defer. simpl.
  destruct (ThreadSafe ps); [|done].
  unfold mutex_Lock. simpl. rewrite Hfree by done. simpl.
  destruct (cache ps !! key); simpl.
  - by rewrite with_mutex_unlock by auto.
  - destruct (os_ReadDir (path ps) fs); simpl; rewrite with_mutex_unlock by auto.
    + done.
    + by rewrite (Has_loop_name _ ps).
Qed.

Lemma Len_unlocked ps fs :
  (ThreadSafe ps = true → mutex ps = false) →
  Len (ps, fs) = Len_body (ps, fs).
Proof.
  intros Hfree. unfold Len, if_ThreadSafe_Lock_defer. simpl.
  destruct (ThreadSafe ps); [|done].
  unfold mutex_Lock. simpl. rewrite Hfree by done. simpl.
  destruct (os_ReadDir (path ps) fs); simpl; rewrite with_mutex_unlock by auto.
  - done.
  - by rewrite (Len_loop_name _ ps).
Qed.

Lemma Keys_unlocked ps fs :
  (ThreadSafe ps = true → mutex ps = false) →
  Keys (ps, fs) = Keys_body (ps, fs).
Proof.
  intros Hfree. unfold Keys, if_ThreadSafe_Lock_defer. simpl.
  destruct (ThreadSafe ps); [|done].
  unfold mutex_Lock. simpl. rewrite Hfree by done. simpl.
  destruct (os_ReadDir (path ps) fs); simpl; rewrite with_mutex_unlock by auto.
  - done.
  - by rewrite (Keys_loop_name _ ps).
Qed.

(** The scan of the listing finds a file of the cache file's name. *)
Lemma Has_loop_spec ps key files :
  Has_loop ps key files = true ↔
  ∃ file, file ∈ files ∧ IsDir file = false ∧ Name file = getCacheFilename ps key.
Proof.
  induction files as [|file files IH]; simpl.
  - split; [done|]. by intros (? & ?%elem_of_nil & _).
  - destruct (IsDir file) eqn:Hdir.
    + rewrite IH. split.
      * intros (f & Hf & ?). exists f. split; [by right|done].
      * intros (f & [->|Hf]%elem_of_cons & Hd & Hn); [congruence|]. by exists f.
    + case_bool_decide as Hname.
      * split; [|done]. intros _. exists file. split; [by left|done].
      * rewrite IH. split.
        -- intros (f & Hf & ?). exists f. split; [by right|done].
        -- intros (f & [->|Hf]%elem_of_cons & Hd & Hn); [congruence|]. by exists f.
Qed.

(** With the lock not in play, the wrappers are their bodies. *)
Lemma Set_unguarded key value seed ps fs :
  ThreadSafe ps = false → Set_ key value seed (ps, fs) = Set_body key value seed (ps, fs).
Proof. intros H. unfold Set_, if_ThreadSafe_Lock_defer. simpl. by rewrite H. Qed.

Lemma Get_unguarded key out ps fs :
  ThreadSafe ps = false → Get key out (ps, fs) = get out key (ps, fs).
Proof. intros H. unfold Get, if_ThreadSafe_Lock_defer. simpl. by rewrite H. Qed.

(** With the lock in play, [Set], [Get] and [SaveToDisk] lock it a second
    time on their way out. *)
Lemma defer_Lock_blocks {A} (body : state FS → outcome (state FS) A) ps fs :
  ThreadSafe ps = true →
  (∀ st a st', body st = Returned a st' → mutex st'.1 = mutex st.1) →
  (∀ st why st', body st = Panicked why st' → mutex st'.1 = mutex st.1) →
  ∀ a st', if_ThreadSafe_Lock_defer mutex_Lock body (ps, fs) ≠ Returned a st'.
Proof.
  intros Hts Hret Hpanic a st'. unfold if_ThreadSafe_Lock_defer. simpl. rewrite Hts.
  unfold mutex_Lock at 1. simpl. destruct (mutex ps); [done|]. simpl.
  destruct (body _) as [a1 st1|why st1|] eqn:Hbody; simpl; [| |done].
  - apply Hret in Hbody. simpl in Hbody. unfold mutex_Lock. by rewrite Hbody.
  - apply Hpanic in Hbody. simpl in Hbody. unfold mutex_Lock. by rewrite Hbody.
Qed.

End operations.

(** ** Has *)

Section Has_properties.
Context {FS : Type} `{!Env FS}.

(** C5. On a cache whose lock is free, [Has key] answers true when the key
    is in the in-memory map; otherwise it lists the storage directory,
    fails with the read-files error when the listing fails, and answers
    true exactly when the listing has a file (not a directory) named as
    the cache file of [key].  In every case the cache, its in-memory map
    included, and the file system are left as they were. *)
Theorem Has_answers_without_promoting (ps : PersistentStorage) (fs : FS) (key : string) :
  (ThreadSafe ps = true → mutex ps = false) →
  ∃ found err,
    Has key (ps, fs) = Returned (found, err) (ps, fs) ∧
    match cache ps !! key with
    | Some _ => found = true ∧ err = None
    | None =>
        match os_ReadDir (path ps) fs with
        | inl e =>
            found = false ∧
            raised ps error_read_files_failed [Error e] err ∧
            (mentions "%" (name ps) = false → IsReadFilesFailed err = inr true)
        | inr files =>
            err = None ∧
            (found = true ↔
             ∃ file, file ∈ files ∧ IsDir file = false
                     ∧ Name file = getCacheFilename ps key)
        end
    end.
Proof.
  intros Hfree. rewrite Has_unlocked by done. unfold Has_body.
  destruct (cache ps !! key) as [it|] eqn:Hmem.
  { by exists true, None. }
  destruct (os_ReadDir (path ps) fs) as [e|files] eqn:Hdir.
  - eexists false, _. split; [done|]. split; [done|]. split; [constructor|].
    intros Hname. unfold IsReadFilesFailed.
    rewrite (is_kind_raised ps error_read_files_failed [Error e]);
      [by rewrite bool_decide_true by done | done | constructor | set_solver].
  - exists (Has_loop ps key files), None. split; [done|]. split; [done|].
    apply Has_loop_spec.
Qed.

End Has_properties.

(** A file on disk, nothing in memory: [Has] says true and the map stays
    empty. *)
Lemma Has_answers_without_promoting_witness :
  ∃ found err,
    Has "a" (New "d" "c", MemFS.one_file) = Returned (found, err) (New "d" "c", MemFS.one_file)
    ∧ found = true ∧ cache (New "d" "c") !! "a" = None.
Proof.
  destruct (Has_answers_without_promoting (New "d" "c") MemFS.one_file "a")
    as (found & err & Hhas & Hcase); [done|].
  exists found, err. split; [exact Hhas|]. split; [|reflexivity].
  change (cache (New "d" "c") !! "a") with (@None any) in Hcase.
  change (os_ReadDir (path (New "d" "c")) MemFS.one_file)
    with (@inr PathError _ [{| Name := "c_a.pcache"; IsDir := false |}]) in Hcase.
  destruct Hcase as [_ Hfound]. apply Hfound.
  eexists. split; [apply list_elem_of_here|]. split; reflexivity.
Defined.

(** ** Delete *)

Section Delete_properties.
Context {FS : Type} `{!Env FS}.

(** C6. [Delete key] always returns, with the key removed from the
    in-memory map whatever else happens.  It returns no error in
    in-memory-only mode, and in disk-backed mode when no cache file of
    the key exists, [os.RemoveAll] of a path that does not exist being
    no error. *)
Theorem Delete_missing_is_no_error (ps : PersistentStorage) (fs : FS) (key : string) :
  (∀ p s, os_Exists p s = false → (os_RemoveAll p s).1 = None) →
  ∃ err fs',
    Delete key (ps, fs) = Returned err (with_cache ps (delete key (cache ps)), fs') ∧
    (inMemory ps = true → err = None ∧ fs' = fs) ∧
    (inMemory ps = false → os_Exists (getCachePath ps key) fs = false → err = None).
Proof.
  intros Hremove. unfold Delete. simpl.
  destruct (inMemory ps) eqn:Hmem.
  - by exists None, fs.
  - change (getCachePath (with_cache ps (delete key (cache ps))) key)
      with (getCachePath ps key).
    destruct (os_RemoveAll (getCachePath ps key) fs) as [[e|] fs'] eqn:Hrm.
    + eexists _, fs'. split; [done|]. split; [done|].
      intros _ Hnone. apply Hremove in Hnone. by rewrite Hrm in Hnone.
    + by exists None, fs'.
Qed.

End Delete_properties.

Lemma MemFS_RemoveAll_missing (p : string) (s : MemFS.fs) :
  os_Exists p s = false → (os_RemoveAll p s).1 = None.
Proof. intros _. simpl. unfold MemFS.RemoveAll. by repeat case_match. Qed.

(** A missing key on an empty disk-backed cache. *)
Lemma Delete_missing_is_no_error_witness :
  ∃ fs', Delete "missing-key" (New "d" "c", (∅ : MemFS.fs)) = Returned None (New "d" "c", fs').
Proof.
  destruct (Delete_missing_is_no_error (New "d" "c") (∅ : MemFS.fs) "missing-key"
              MemFS_RemoveAll_missing) as (err & fs' & Hdel & _ & Hdisk).
  exists fs'. rewrite Hdel. by rewrite (Hdisk eq_refl eq_refl).
Defined.

(** The same on an empty in-memory-only cache. *)
Example Delete_missing_in_memory :
  Delete "missing-key" (NewInMemory "c", (∅ : MemFS.fs)) = Returned None (NewInMemory "c", ∅).
Proof. reflexivity. Qed.

(** ** What the bodies of Set and Get leave alone *)

Section frames.
Context {FS : Type} `{!Env FS}.

Lemma with_cache_id ps : with_cache ps (cache ps) = ps.
Proof. by destruct ps. Qed.

(** [set] changes the map and the files, nothing else of the cache. *)
Lemma set_frame key value seed ps fs a ps' fs' :
  set key value seed (ps, fs) = Returned a (ps', fs') → ps' = with_cache ps (cache ps').
Proof.
  unfold set.
  destruct (if SaveToDiskOnSet _ then _ else _) as [[e|] fs1]; [by intros [= <- <- <-]|].
  destruct (_ && _); [|by intros [= <- <- <-]].
  destruct (range _ _) as [|[k v] l]; by intros [= <- <- <-].
Qed.

Lemma set_returns key value seed st : ∃ a st', set key value seed st = Returned a st'.
Proof.
  destruct st as [ps fs]. unfold set.
  destruct (if SaveToDiskOnSet _ then _ else _) as [[e|] fs1]; [by eauto|].
  destruct (_ && _); [|by eauto].
  destruct (range _ _) as [|[k v] l]; by eauto.
Qed.

Lemma get_frame out key ps fs a ps' fs' :
  get out key (ps, fs) = Returned a (ps', fs') →
  ps' = with_cache ps (cache ps') ∧ fs' = fs.
Proof.
  unfold get. case_bool_decide.
  { destruct (reflect.Value_Type out); [done|]. intros [= <- <- <-].
    by rewrite with_cache_id. }
  destruct (cache ps !! key) as [it|].
  - destruct (reflect.Elem_Set out it); [done|]. intros [= <- <- <-].
    by rewrite with_cache_id.
  - destruct (readFromDisk ps out key fs) as [out' [e|]].
    + destruct (reflect.Elem_Interface out'); [done|]. by intros [= <- <- <-].
    + intros [= <- <- <-]. by rewrite with_cache_id.
Qed.

Lemma get_panic_state out key st why st' :
  get out key st = Panicked why st' → st' = st.
Proof.
  destruct st as [ps fs]. unfold get. case_bool_decide.
  { destruct (reflect.Value_Type out); [by intros [= _ <-]|done]. }
  destruct (cache ps !! key) as [it|].
  - destruct (reflect.Elem_Set out it); [by intros [= _ <-]|done].
  - destruct (readFromDisk ps out key fs) as [out' [e|]]; [|done].
    destruct (reflect.Elem_Interface out'); [by intros [= _ <-]|done].
Qed.

(** The loop of [Set] in terms of the calls it makes. *)
Lemma unwrap_loop it :
  unwrap it =
  match reflect.TypeOf it with
  | None => inl reflect.panic_nil_Type
  | Some t =>
      if bool_decide (reflect.Type_Kind t = reflect.Ptr) then
        match reflect.Elem_Interface it with
        | inl why => inl why
        | inr it' => unwrap it'
        end
      else inr it
  end.
Proof. destruct it as [[| | | | | | |elem [target|]]|]; reflexivity. Qed.

(** With [ThreadSafe] set, [Set], [Get] and [SaveToDisk] (when it has work
    to do) do not return: their deferred call locks the mutex they hold. *)
Lemma Set_ThreadSafe_never_returns key value seed ps fs a st' :
  ThreadSafe ps = true → Set_ key value seed (ps, fs) ≠ Returned a st'.
Proof.
  intros Hts. apply defer_Lock_blocks; [done| |].
  - intros [ps1 fs1] a1 [ps2 fs2]. unfold Set_body.
    destruct (unwrap value); [done|]. intros ->%set_frame. done.
  - intros [ps1 fs1] why [ps2 fs2]. unfold Set_body.
    destruct (unwrap value) as [w|it]; [by intros [= _ <- <-]|].
    destruct (set_returns key it seed (ps1, fs1)) as (? & ? & ->). done.
Qed.

Lemma Get_ThreadSafe_never_returns key out ps fs a st' :
  ThreadSafe ps = true → Get key out (ps, fs) ≠ Returned a st'.
Proof.
  intros Hts. apply defer_Lock_blocks; [done| |].
  - intros [ps1 fs1] a1 [ps2 fs2] [-> _]%get_frame. done.
  - intros st why st2 ->%get_panic_state. done.
Qed.

Lemma SaveToDisk_ThreadSafe_never_returns seed ps fs a st' :
  ThreadSafe ps = true → SaveToDiskOnSet ps = false →
  SaveToDisk seed (ps, fs) ≠ Returned a st'.
Proof.
  intros Hts Hsave. unfold SaveToDisk. simpl. rewrite Hsave.
  apply defer_Lock_blocks; [done| |].
  - intros [ps1 fs1] a1 [ps2 fs2]. unfold SaveToDisk_body.
    destruct (SaveToDisk_loop _ _ _). by intros [= <- <- <-].
  - intros [ps1 fs1] why st2. unfold SaveToDisk_body.
    by destruct (SaveToDisk_loop _ _ _).
Qed.

End frames.

(** ** Get: the fallback to disk *)

Section Get_properties.
Context {FS : Type} `{!Env FS}.


(** The ways in which [readFromDisk] fails. *)
Lemma readFromDisk_fails ps out key fs :
  is_Some (readFromDisk ps out key fs).2 ↔
  inMemory ps = true
  ∨ inMemory ps = false
    ∧ ((∃ e, os_ReadFile (getCachePath ps key) fs = inl e)
       ∨ ∃ data, os_ReadFile (getCachePath ps key) fs = inr data
                 ∧ is_Some (deserialize data out).2).
Proof.
  unfold readFromDisk. destruct (inMemory ps).
  { split; [by left|]. intros _. by eexists. }
  destruct (os_ReadFile _ _) as [e|data].
  - split.
    + intros _. right. split; [done|]. left. by exists e.
    + intros _. destruct (IsNotExist e); by eexists.
  - destruct (deserialize data out) as [out' [e|]] eqn:Hd; simpl; split.
    + intros _. right. split; [done|]. right. exists data. rewrite Hd. split; [done|].
      by eexists.
    + intros _. by eexists.
    + by intros [? [=]].
    + intros [[=]|(_ & [(? & [=])|(? & [= <-] & Hsome)])].
      rewrite Hd in Hsome. by destruct Hsome as [? [=]].
Qed.

(** A key found on disk is handed back and the in-memory map is left as
    it was: the branch that stores the value in the map is the one taken
    on failure. *)
Lemma get_disk_hit ps fs key out out' :
  reflect.Value_Kind out = reflect.Ptr →
  cache ps !! key = None →
  readFromDisk ps out key fs = (out', None) →
  get out key (ps, fs) = Returned (None, out') (ps, fs).
Proof.
  intros Hkind Hmem Hread. unfold get.
  rewrite bool_decide_false by (by intros []). by rewrite Hmem, Hread.
Qed.

Lemma get_memory_hit ps fs key elem content v :
  cache ps !! key = Some (Some v) →
  reflect.assignable (typeof v) elem = true →
  get (Some (Vptr elem content)) key (ps, fs)
  = Returned (None, Some (Vptr elem (Some v))) (ps, fs).
Proof.
  intros Hmem Hty. unfold get. simpl. rewrite Hmem. simpl. by rewrite Hty.
Qed.


(** C10. [Set] of a nil value and [Get] into a nil [out] return no error:
    the loop of [Set] calls [Kind] on the nil [Type], and the
    expected-pointer path of [get] calls [Type] on the zero [Value].
    With [ThreadSafe] unset the calls panic; with it set the panic is
    raised and the deferred [Lock] then blocks. *)
Theorem nil_arguments_panic (key : string) (seed : nat → nat) (st : state FS) :
  Set_body key None seed st = Panicked reflect.panic_nil_Type st ∧
  get None key st = Panicked reflect.panic_Type_zero st ∧
  Set_ key None seed st
  = (if ThreadSafe st.1 then
       if mutex st.1 then Deadlocked None
       else Deadlocked (Some reflect.panic_nil_Type)
     else Panicked reflect.panic_nil_Type st) ∧
  Get key None st
  = (if ThreadSafe st.1 then
       if mutex st.1 then Deadlocked None
       else Deadlocked (Some reflect.panic_Type_zero)
     else Panicked reflect.panic_Type_zero st).
Proof.
  destruct st as [ps fs].
  assert (get None key (ps, fs) = Panicked reflect.panic_Type_zero (ps, fs)) as Hget
    by reflexivity.
  split; [done|]. split; [done|].
  unfold Set_, Get, if_ThreadSafe_Lock_defer, mutex_Lock. simpl.
  destruct (ThreadSafe ps); [|done]. by destruct (mutex ps).
Qed.

End Get_properties.


(** C1. A disk-backed cache with nothing in memory and the cache file of
    key [a] on disk: [Get] returns no error and yields the stored string,
    and the key is still absent from the in-memory map. *)
Theorem Get_disk_hit_is_not_promoted :
  ∃ st',
    Get "a" (Some (Vptr Tstring (Some (Vstring "")))) (New "d" "c", MemFS.one_file)
    = Returned (None, Some (Vptr Tstring (Some (Vstring "x")))) st'
    ∧ cache st'.1 !! "a" = None.
Proof. eexists. split; reflexivity. Qed.

(** C4. With [ThreadSafe] set, [Set], [Get] and a [SaveToDisk] that has
    work to do block in their deferred [Lock] rather than return, and
    [Delete] runs without taking the lock, even while it is held. *)
Theorem ThreadSafe_operations_block_or_skip_the_lock :
  Set_ "k" (Some (Vstring "v")) (λ _, 0%nat)
    (with_ThreadSafe (New "d" "c") true, (∅ : MemFS.fs)) = Deadlocked None
  ∧ Get "k" (Some (Vptr Tstring (Some (Vstring ""))))
      (with_ThreadSafe (New "d" "c") true, (∅ : MemFS.fs)) = Deadlocked None
  ∧ SaveToDisk (λ _, 0%nat)
      (with_SaveToDiskOnSet (with_ThreadSafe (New "d" "c") true) false, (∅ : MemFS.fs))
    = Deadlocked None
  ∧ Has "k" (with_mutex (with_ThreadSafe (New "d" "c") true) true, (∅ : MemFS.fs))
    = Deadlocked None
  ∧ ∃ st', Delete "k" (with_mutex (with_ThreadSafe (New "d" "c") true) true, (∅ : MemFS.fs))
           = Returned None st'.
Proof. repeat split. by eexists. Qed.

(** ** Iteration order and eviction *)

(** Whatever the seed, the loop visits every entry once. *)
Lemma range_from_Permutation {A} (seed : nat → nat) (l : list A) :
  range_from seed (length l) l ≡ₚ l.
Proof.
  remember (length l) as n eqn:Hn. revert l Hn.
  induction n as [|n IH]; intros l Hn; simpl.
  { by destruct l. }
  destruct (lookup_lt_is_Some_2 l (seed (S n) mod length l)%nat) as [x Hx].
  { apply Nat.mod_upper_bound. lia. }
  rewrite Hx. etrans; [|symmetry; exact (delete_Permutation l _ x Hx)].
  constructor. apply IH.
  rewrite length_delete by eauto. lia.
Qed.

Lemma range_Permutation {V} (seed : nat → nat) (m : gmap string V) :
  range seed m ≡ₚ map_to_list m.
Proof. unfold range. rewrite <-length_map_to_list. apply range_from_Permutation. Qed.

(** The loop over a map that is not empty has a first entry, and it is an
    entry of the map. *)
Lemma range_head {V} (seed : nat → nat) (m : gmap string V) :
  m ≠ ∅ → ∃ k v rest, range seed m = (k, v) :: rest ∧ m !! k = Some v.
Proof.
  intros Hne. unfold range. rewrite <-length_map_to_list.
  destruct (map_to_list m) as [|kv l] eqn:Hl.
  { by apply map_to_list_empty_iff in Hl. }
  simpl length. cbn [range_from].
  destruct (lookup_lt_is_Some_2 (kv :: l) (seed (S (length l)) mod length (kv :: l))%nat)
    as [[k v] Hkv].
  { apply Nat.mod_upper_bound. simpl. lia. }
  rewrite Hkv. exists k, v, (range_from seed (length l) (delete (seed (S (length l)) mod length (kv :: l))%nat (kv :: l))).
  split; [done|]. apply elem_of_map_to_list. rewrite Hl. by eapply list_elem_of_lookup_2.
Qed.

Section Set_properties.
Context {FS : Type} `{!Env FS}.

(** The map after a [set] that returns no error: the entry is inserted
    and, when the count then exceeds a finite limit, one entry of the
    map is deleted. *)
Lemma set_cache key value seed ps (fs : FS) ps' fs' :
  set key value seed (ps, fs) = Returned None (ps', fs') →
  let inserted := <[key := value]> (cache ps) in
  if bool_decide (MaxMemItems ps ≠ MEM_ITEMS_UNLIMITED)
     && (Z.of_nat (size inserted) >? MaxMemItems ps)%Z
  then ∃ k, is_Some (inserted !! k) ∧ cache ps' = delete k inserted
  else cache ps' = inserted.
Proof.
  unfold set. simpl.
  destruct (if SaveToDiskOnSet ps then _ else _) as [[e|] fs1]; [done|].
  destruct (_ && _).
  - destruct (range_head seed (<[key:=value]> (cache ps))) as (k & v & rest & -> & Hk).
    { apply insert_non_empty. }
    intros [= <- <-]. exists k. by rewrite Hk.
  - by intros [= <- <-].
Qed.

Lemma Set_each_cons key value seed calls (st st' : state FS) :
  Set_each ((key, value, seed) :: calls) st = Some st' →
  ∃ st1, Set_ key value seed st = Returned None st1 ∧ Set_each calls st1 = Some st'.
Proof.
  simpl. destruct (Set_ key value seed st) as [[e|] st1| |]; try done. eauto.
Qed.

(** A [Set] that returns has run with [ThreadSafe] unset. *)
Lemma Set_step key value seed ps (fs : FS) err ps' fs' :
  Set_ key value seed (ps, fs) = Returned err (ps', fs') →
  ThreadSafe ps = false ∧
  ps' = with_cache ps (cache ps') ∧
  ∃ it, unwrap value = inr it ∧ set key it seed (ps, fs) = Returned err (ps', fs').
Proof.
  intros Hcall. destruct (ThreadSafe ps) eqn:Hts.
  { by apply Set_ThreadSafe_never_returns in Hcall. }
  split; [done|]. rewrite Set_unguarded in Hcall by done. unfold Set_body in Hcall.
  destruct (unwrap value) as [why|it]; [done|].
  split; [by eapply set_frame|]. eauto.
Qed.

Lemma Set_size key value seed ps (fs : FS) ps' fs' N :
  (0 ≤ N)%Z → MaxMemItems ps = N →
  (Z.of_nat (size (cache ps)) ≤ N)%Z →
  Set_ key value seed (ps, fs) = Returned None (ps', fs') →
  MaxMemItems ps' = N ∧
  (Z.of_nat (size (cache ps')) ≤ N)%Z ∧
  (∀ k, cache ps !! k = None → k ≠ key → cache ps' !! k = None) ∧
  (cache ps !! key = None →
   Z.of_nat (size (cache ps')) = Z.min (Z.of_nat (size (cache ps)) + 1) N).
Proof.
  intros HN Hmax Hsize Hcall.
  destruct (Set_step _ _ _ _ _ _ _ _ Hcall) as (_ & Hframe & it & _ & Hset).
  split; [by rewrite Hframe|].
  apply set_cache in Hset. simpl in Hset. rewrite Hmax in Hset.
  pose proof (map_size_insert key it (cache ps)) as Hins.
  destruct (_ && _) eqn:Hcond.
  - destruct Hset as (k & Hk & ->).
    apply andb_true_iff in Hcond as [_ Hgt%Z.gtb_lt].
    rewrite map_size_delete_Some by done.
    split; [|split].
    + destruct (cache ps !! key); simpl in Hins; lia.
    + intros k' Hk' Hne. destruct (decide (k = k')) as [->|];
        [by rewrite lookup_delete_eq|].
      by rewrite lookup_delete_ne, lookup_insert_ne by done.
    + intros Hnone. rewrite Hnone in Hins. simpl in Hins. lia.
  - rewrite Hset.
    assert (Z.of_nat (size (<[key:=it]> (cache ps))) ≤ N)%Z as Hle.
    { apply andb_false_iff in Hcond as [Hunl|Hgt].
      - apply bool_decide_eq_false in Hunl. unfold MEM_ITEMS_UNLIMITED in Hunl.
        apply dec_stable in Hunl. lia.
      - rewrite Z.gtb_ltb in Hgt. apply Z.ltb_ge in Hgt. done. }
    split; [done|]. split.
    + intros k' Hk' Hne. by rewrite lookup_insert_ne by done.
    + intros Hnone. rewrite Hnone in Hins. simpl in Hins. lia.
Qed.

Lemma Set_each_bound N calls ps (fs : FS) st' :
  (0 ≤ N)%Z → MaxMemItems ps = N →
  (Z.of_nat (size (cache ps)) ≤ N)%Z →
  Set_each calls (ps, fs) = Some st' →
  (Z.of_nat (size (cache st'.1)) ≤ N)%Z.
Proof.
  intros HN. revert ps fs. induction calls as [|[[key value] seed] calls IH];
    intros ps fs Hmax Hsize Hrun.
  - by injection Hrun as <-.
  - apply Set_each_cons in Hrun as ([ps1 fs1] & Hcall & Hrun).
    destruct (Set_size _ _ _ _ _ _ _ _ HN Hmax Hsize Hcall) as (? & ? & _).
    by eapply IH.
Qed.

Lemma Set_each_distinct N calls ps (fs : FS) st' :
  (0 ≤ N)%Z → MaxMemItems ps = N →
  (Z.of_nat (size (cache ps)) ≤ N)%Z →
  NoDup (calls.*1.*1) →
  (∀ k, k ∈ calls.*1.*1 → cache ps !! k = None) →
  Set_each calls (ps, fs) = Some st' →
  Z.of_nat (size (cache st'.1))
  = Z.min (Z.of_nat (size (cache ps)) + Z.of_nat (length calls)) N.
Proof.
  intros HN. revert ps fs. induction calls as [|[[key value] seed] calls IH];
    intros ps fs Hmax Hsize Hdup Hfresh Hrun.
  - injection Hrun as <-. simpl. lia.
  - apply Set_each_cons in Hrun as ([ps1 fs1] & Hcall & Hrun).
    simpl in Hdup. apply NoDup_cons in Hdup as [Hkey Hdup].
    destruct (Set_size _ _ _ _ _ _ _ _ HN Hmax Hsize Hcall)
      as (Hmax1 & Hsize1 & Hkeep & Hgrow).
    assert (∀ k, k ∈ calls.*1.*1 → cache ps1 !! k = None) as Hfresh1.
    { intros k Hk. apply Hkeep; [apply Hfresh; simpl; by right | by intros ->]. }
    rewrite (IH ps1 fs1 Hmax1 Hsize1 Hdup Hfresh1 Hrun).
    rewrite Hgrow by (apply Hfresh; simpl; by left).
    simpl length. lia.
Qed.

(** C2, as the code has it.  With a finite limit [N] that is not changed
    meanwhile, calls of [Set] that return no error keep an in-memory map
    of at most [N] entries within [N] entries; from an empty map, [N + 1]
    distinct keys leave exactly [N] entries. *)
Theorem Set_keeps_memory_bound (N : Z) (calls : list (string * any * (nat → nat)))
    (ps : PersistentStorage) (fs : FS) (st' : state FS) :
  (0 ≤ N)%Z → MaxMemItems ps = N →
  (Z.of_nat (size (cache ps)) ≤ N)%Z →
  Set_each calls (ps, fs) = Some st' →
  (Z.of_nat (size (cache st'.1)) ≤ N)%Z ∧
  (cache ps = ∅ → NoDup (calls.*1.*1) → Z.of_nat (length calls) = (N + 1)%Z →
   Z.of_nat (size (cache st'.1)) = N).
Proof.
  intros HN Hmax Hsize Hrun. split; [by eapply Set_each_bound|].
  intros Hempty Hdup Hlen.
  assert (∀ k, k ∈ calls.*1.*1 → cache ps !! k = None) as Hfresh
    by (intros k _; by rewrite Hempty).
  rewrite (Set_each_distinct N calls ps fs st' HN Hmax Hsize Hdup Hfresh Hrun).
  rewrite Hempty, map_size_empty. lia.
Qed.

End Set_properties.

(** Two keys into an empty in-memory cache with a limit of one entry. *)
Lemma Set_keeps_memory_bound_witness :
  ∃ st' : state MemFS.fs,
    Set_each [("a", Some (Vstring "x"), λ _, 0%nat); ("b", Some (Vstring "y"), λ _, 0%nat)]
      (with_MaxMemItems (NewInMemory "c") 1, ∅) = Some st'
    ∧ Z.of_nat (size (cache st'.1)) = 1%Z.
Proof.
  eexists. split; [reflexivity|].
  assert ((0 ≤ 1)%Z) as H0 by lia.
  assert ((Z.of_nat (size (cache (with_MaxMemItems (NewInMemory "c") 1))) ≤ 1)%Z) as Hsize
    by (intros [=]).
  apply (Set_keeps_memory_bound 1
           [("a", Some (Vstring "x"), λ _, 0%nat); ("b", Some (Vstring "y"), λ _, 0%nat)]
           (with_MaxMemItems (NewInMemory "c") 1) ∅ _ H0 eq_refl Hsize eq_refl).
  - reflexivity.
  - simpl. apply NoDup_cons. split; [by intros [=]%list_elem_of_singleton|].
    apply NoDup_singleton.
  - reflexivity.
Defined.

(** Three keys go into a cache without a limit, the limit is then set to
    one, and the next [Set] returns no error: it deletes one entry and
    leaves three. *)
Lemma Set_leaves_more_than_the_limit :
  ∃ st3 st4 : state MemFS.fs,
    Set_each [("a", Some (Vstring "x"), λ _, 0%nat); ("b", Some (Vstring "x"), λ _, 0%nat);
              ("c", Some (Vstring "x"), λ _, 0%nat)] (NewInMemory "c", ∅) = Some st3
    ∧ Set_ "d" (Some (Vstring "x")) (λ _, 0%nat)
        (with_MaxMemItems st3.1 (MemoryItemsCount 1), st3.2) = Returned None st4
    ∧ MaxMemItems st4.1 = 1%Z
    ∧ size (cache st4.1) = 3%nat.
Proof. eexists _, _. repeat split. Qed.

(** ** Set followed by Get *)

Section round_trip.
Context {FS : Type} `{!Env FS}.

(** A [set] that persists and returns no error has encoded the value and
    written the bytes to the cache file. *)
Lemma set_saved key value seed ps (fs : FS) ps1 fs1 :
  SaveToDiskOnSet ps = true → inMemory ps = false →
  set key value seed (ps, fs) = Returned None (ps1, fs1) →
  ∃ data fs0,
    gob_Encode value = (data, None) ∧
    os_WriteFile (getCachePath ps key) data 420%N fs0 = (None, fs1).
Proof.
  intros Hsave Hdisk. unfold set. simpl. rewrite Hsave.
  unfold saveToDisk. simpl. rewrite Hdisk.
  destruct (os_MkdirAll (path ps) 493%N fs) as [[e|] fs0]; [done|].
  unfold serialize. destruct (gob_Encode value) as [data [e|]]; [done|].
  change (getCachePath (with_cache ps (<[key:=value]> (cache ps))) key)
    with (getCachePath ps key).
  destruct (os_WriteFile (getCachePath ps key) data 420%N fs0) as [[e|] fs2] eqn:Hwrite;
    [done|].
  intros Hrest. exists data, fs0. split; [done|]. rewrite Hwrite. f_equal.
  destruct (_ && _); [destruct (range _ _) as [|[? ?] ?]|]; by injection Hrest.
Qed.

(** C3, as the code has it.  A [Set] of a value that is not a pointer,
    returning no error, followed by [Get] through a pointer to a variable
    the value can be assigned to, returns no error and yields the value,
    provided that the entry could not be evicted (no limit, or the count
    after the insertion within the limit) or that it was persisted (a
    disk-backed cache that saves on [Set], a file store that reads back
    what it wrote, a codec that decodes what it encoded). *)
Theorem Set_then_Get_round_trip (ps : PersistentStorage) (fs : FS) (key : string)
    (v : value) (seed : nat → nat) (ps1 : PersistentStorage) (fs1 : FS)
    (elem : type) (content : any) :
  unwrap (Some v) = inr (Some v) →
  reflect.assignable (typeof v) elem = true →
  Set_ key (Some v) seed (ps, fs) = Returned None (ps1, fs1) →
  (MaxMemItems ps = MEM_ITEMS_UNLIMITED
   ∨ (Z.of_nat (size (<[key := Some v]> (cache ps))) ≤ MaxMemItems ps)%Z)
  ∨ (inMemory ps = false ∧ SaveToDiskOnSet ps = true
     ∧ (∀ p data perm s s',
          os_WriteFile p data perm s = (None, s') → os_ReadFile p s' = inr data)
     ∧ (∀ data, gob_Encode (Some v) = (data, None) →
          gob_Decode data elem content = (Some v, None))) →
  Get key (Some (Vptr elem content)) (ps1, fs1)
  = Returned (None, Some (Vptr elem (Some v))) (ps1, fs1).
Proof.
  intros Hval Hty Hcall Hcases.
  destruct (Set_step _ _ _ _ _ _ _ _ Hcall) as (Hts & Hframe & it & Hit & Hset).
  rewrite Hval in Hit. injection Hit as <-.
  rewrite Get_unguarded by (by rewrite Hframe).
  pose proof (set_cache _ _ _ _ _ _ _ Hset) as Hcache. simpl in Hcache.
  destruct (cache ps1 !! key) as [it|] eqn:Hkey.
  { (* still in memory *)
    assert (it = Some v) as ->.
    { destruct (_ && _).
      - destruct Hcache as (k & _ & Hc). rewrite Hc in Hkey.
        destruct (decide (k = key)) as [->|];
          [by rewrite lookup_delete_eq in Hkey|].
        rewrite lookup_delete_ne, lookup_insert_eq in Hkey by done. congruence.
      - rewrite Hcache, lookup_insert_eq in Hkey. congruence. }
    by apply get_memory_hit. }
  (* evicted: it must have been persisted *)
  destruct Hcases as [Hkeep|(Hdisk & Hsave & Hfs & Hcodec)].
  { exfalso. destruct (_ && _) eqn:Hcond.
    - apply andb_true_iff in Hcond as [Hlim%bool_decide_eq_true Hgt%Z.gtb_lt].
      destruct Hkeep; [done|lia].
    - by rewrite Hcache, lookup_insert_eq in Hkey. }
  destruct (set_saved _ _ _ _ _ _ _ Hsave Hdisk Hset) as (data & fs0 & Henc & Hwrite).
  apply get_disk_hit; [done|done|].
  unfold readFromDisk.
  replace (inMemory ps1) with false by (by rewrite Hframe).
  replace (getCachePath ps1 key) with (getCachePath ps key) by (by rewrite Hframe).
  rewrite (Hfs _ _ _ _ _ Hwrite). simpl. by rewrite (Hcodec _ Henc).
Qed.

End round_trip.

Lemma MemFS_read_after_write (p : string) (data : list Byte.byte) (perm : N) (s s' : MemFS.fs) :
  os_WriteFile p data perm s = (None, s') → os_ReadFile p s' = inr data.
Proof.
  simpl. unfold MemFS.WriteFile, MemFS.ReadFile, MemFS.lookup_file.
  destruct (MemFS.dir_base p) as [[d|] b]; [|done].
  destruct (s !! d) as [files|]; [|done].
  intros [= <-]. by rewrite lookup_insert_eq; simpl; rewrite lookup_insert_eq.
Qed.

Lemma MemFS_codec_round_trip (v : value) (elem : type) (content : any) (data : list Byte.byte) :
  reflect.assignable (typeof v) elem = true →
  gob_Encode (Some v) = (data, None) → gob_Decode data elem content = (Some v, None).
Proof.
  intros Hty. simpl. unfold MemFS.Encode, MemFS.Decode.
  destruct v as [b|n|s|name fields|t items|kt vt entries|t|t c]; try done.
  - intros [= <-]. by destruct b; simpl in *; rewrite Hty.
  - intros [= <-]. simpl. rewrite String.string_of_list_byte_of_string.
    simpl in *. by rewrite Hty.
Qed.

(** A string stored in a fresh disk-backed cache and read back. *)
Lemma Set_then_Get_round_trip_witness :
  ∃ st1 : state MemFS.fs,
    Set_ "k" (Some (Vstring "v")) (λ _, 0%nat) (New "d" "c", ∅) = Returned None st1
    ∧ Get "k" (Some (Vptr Tstring (Some (Vstring "")))) (st1.1, st1.2)
      = Returned (None, Some (Vptr Tstring (Some (Vstring "v")))) (st1.1, st1.2).
Proof.
  eexists. split; [reflexivity|].
  apply (Set_then_Get_round_trip (New "d" "c") ∅ "k" (Vstring "v") (λ _, 0%nat));
    [reflexivity|reflexivity|reflexivity|].
  right. split; [reflexivity|]. split; [reflexivity|]. split.
  - apply MemFS_read_after_write.
  - intros data. by apply MemFS_codec_round_trip.
Defined.

(** An in-memory-only cache limited to one entry and holding key [a]:
    [Set] of key [b] returns no error, the loop that evicts starts at [b],
    and the [Get] of [b] that follows fails with key-not-found. *)
Lemma Set_then_Get_fails_after_eviction :
  ∃ st1 st2 st3 : state MemFS.fs,
    Set_ "a" (Some (Vstring "x")) (λ _, 0%nat)
      (with_MaxMemItems (NewInMemory "c") (MemoryItemsCount 1), ∅) = Returned None st1
    ∧ Set_ "b" (Some (Vstring "y")) (λ _, 1%nat) st1 = Returned None st2
    ∧ Get "b" (Some (Vptr Tstring (Some (Vstring "")))) st2
      = Returned (Some "pstore: c: key not found b", Some (Vptr Tstring (Some (Vstring "")))) st3
    ∧ IsKeyNotFound (Some "pstore: c: key not found b") = inr true.
Proof. eexists _, _, _. repeat split. Qed.

(** ** Errors and their kinds *)

Section raised_errors.
Context {FS : Type} `{!Env FS}.

Lemma raised_marker ps m texts err : raised ps m texts err → m ∈ markers.
Proof. destruct 1; unfold markers; set_solver. Qed.

Lemma nil_or_raised_name ps ps' err :
  name ps = name ps' → nil_or_raised ps err → nil_or_raised ps' err.
Proof.
  intros Hn [->|(m & texts & Hm & Hr)]; [by left|right].
  exists m, texts. split; [done|]. by eapply raised_name.
Qed.

Ltac is_raised := right; do 2 eexists; split; [|constructor]; unfold markers; set_solver.

Lemma saveToDisk_raises ps key value (fs : FS) :
  nil_or_raised ps (saveToDisk ps key value fs).1.
Proof.
  unfold saveToDisk. destruct (inMemory ps); [by left|].
  destruct (os_MkdirAll _ _ _) as [[e|] fs1]; [is_raised|].
  destruct (serialize value) as [data [e|]]; [is_raised|].
  destruct (os_WriteFile _ _ _ _) as [[e|] fs2]; [is_raised|by left].
Qed.

Lemma SaveToDisk_loop_raises ps entries (fs : FS) :
  nil_or_raised ps (SaveToDisk_loop ps entries fs).1.
Proof.
  revert fs. induction entries as [|[k v] entries IH]; intros fs; simpl; [by left|].
  pose proof (saveToDisk_raises ps k v fs) as Hsave.
  destruct (saveToDisk ps k v fs) as [[e|] fs1]; [done|apply IH].
Qed.

Lemma readFromDisk_raises ps out key (fs : FS) :
  nil_or_raised ps (readFromDisk ps out key fs).2.
Proof.
  unfold readFromDisk. destruct (inMemory ps); [is_raised|].
  destruct (os_ReadFile _ _) as [e|data].
  - destruct (IsNotExist e); is_raised.
  - destruct (deserialize data out) as [out' [e|]]; [is_raised|by left].
Qed.

Lemma set_raises key value seed ps (fs : FS) err st' :
  set key value seed (ps, fs) = Returned err st' → nil_or_raised ps err.
Proof.
  unfold set.
  destruct (SaveToDiskOnSet _) eqn:Hsave; simpl.
  - pose proof (saveToDisk_raises (with_cache ps (<[key:=value]> (cache ps))) key value fs)
      as Hr.
    destruct (saveToDisk _ key value fs) as [[e|] fs1].
    + intros [= <- _]. by eapply nil_or_raised_name, Hr.
    + destruct (_ && _); [destruct (range _ _) as [|[? ?] ?]|]; intros [= <- _]; by left.
  - destruct (_ && _); [destruct (range _ _) as [|[? ?] ?]|]; intros [= <- _]; by left.
Qed.

Lemma get_raises out key ps (fs : FS) err out' st' :
  get out key (ps, fs) = Returned (err, out') st' → nil_or_raised ps err.
Proof.
  unfold get. case_bool_decide.
  { destruct (reflect.Value_Type out); [done|]. intros [= <- _ _]. is_raised. }
  destruct (cache ps !! key) as [it|].
  - destruct (reflect.Elem_Set out it); [done|]. intros [= <- _ _]. by left.
  - pose proof (readFromDisk_raises ps out key fs) as Hr.
    destruct (readFromDisk ps out key fs) as [o [e|]].
    + destruct (reflect.Elem_Interface o); [done|]. by intros [= <- _ _].
    + intros [= <- _ _]. by left.
Qed.

(** What a wrapper returns, its body has returned, run on the cache
    itself or on the cache with its lock taken. *)
Lemma guarded_returns {A} d (body : state FS → outcome (state FS) A) ps fs a st' :
  if_ThreadSafe_Lock_defer d body (ps, fs) = Returned a st' →
  ∃ locked st1, body (with_mutex ps locked, fs) = Returned a st1 ∨ body (ps, fs) = Returned a st1.
Proof.
  unfold if_ThreadSafe_Lock_defer, mutex_Lock. simpl.
  destruct (ThreadSafe ps); [|by exists false, st'; right].
  destruct (mutex ps); [done|]. simpl.
  destruct (body _) as [a1 st1|why st1|] eqn:Hbody; simpl; [| |done].
  - destruct (d st1) as [[] st2|why st2|]; [|done|done].
    intros [= <- <-]. exists true, st1. by left.
  - by destruct (d st1).
Qed.

Lemma Set_body_raises key value seed ps (fs : FS) err st' :
  Set_body key value seed (ps, fs) = Returned err st' → nil_or_raised ps err.
Proof. unfold Set_body. destruct (unwrap value); [done|]. apply set_raises. Qed.

Lemma Has_body_raises key ps (fs : FS) found err st' :
  Has_body key (ps, fs) = Returned (found, err) st' → nil_or_raised ps err.
Proof.
  unfold Has_body. destruct (cache ps !! key); [intros [= _ <- _]; by left|].
  destruct (os_ReadDir _ _); intros [= _ <- _]; [is_raised|by left].
Qed.

Lemma Keys_body_raises ps (fs : FS) keys err st' :
  Keys_body (ps, fs) = Returned (keys, err) st' → nil_or_raised ps err.
Proof.
  unfold Keys_body. destruct (os_ReadDir _ _); intros [= _ <- _]; [is_raised|by left].
Qed.

Lemma Len_body_raises ps (fs : FS) count err st' :
  Len_body (ps, fs) = Returned (count, err) st' → nil_or_raised ps err.
Proof.
  unfold Len_body. destruct (os_ReadDir _ _); intros [= _ <- _]; [is_raised|by left].
Qed.

Lemma SaveToDisk_body_raises seed ps (fs : FS) err st' :
  SaveToDisk_body seed (ps, fs) = Returned err st' → nil_or_raised ps err.
Proof.
  unfold SaveToDisk_body.
  pose proof (SaveToDisk_loop_raises ps (range seed (cache ps)) fs) as Hr.
  destruct (SaveToDisk_loop _ _ _) as [e fs1]. by intros [= <- _].
Qed.

Lemma Delete_raises key ps (fs : FS) err st' :
  Delete key (ps, fs) = Returned err st' → nil_or_raised ps err.
Proof.
  unfold Delete. simpl. destruct (inMemory ps); [intros [= <- _]; by left|].
  destruct (os_RemoveAll _ _) as [[e|] fs1]; intros [= <- _]; [|by left].
  right. exists error_delete_failed, [key; Error e].
  split; [unfold markers; set_solver|].
  eapply raised_name; [|constructor]. done.
Qed.

(** Every error a public operation returns is one the package raised. *)
Lemma returns_error_raised (st : state FS) err :
  returns_error st err → nil_or_raised st.1 err.
Proof.
  destruct st as [ps fs]. simpl.
  assert (∀ locked, name (with_mutex ps locked) = name ps) as Hname by done.
  destruct 1 as [key value seed err st' H|key out err out' st' H|key found err st' H
                |key err st' H|keys err st' H|count err st' H|seed err st' H].
  - apply guarded_returns in H as (locked & st1 & [H|H]); apply Set_body_raises in H;
      [by eapply nil_or_raised_name, H|done].
  - apply guarded_returns in H as (locked & st1 & [H|H]); apply get_raises in H;
      [by eapply nil_or_raised_name, H|done].
  - apply guarded_returns in H as (locked & st1 & [H|H]); apply Has_body_raises in H;
      [by eapply nil_or_raised_name, H|done].
  - by eapply Delete_raises.
  - apply guarded_returns in H as (locked & st1 & [H|H]); apply Keys_body_raises in H;
      [by eapply nil_or_raised_name, H|done].
  - apply guarded_returns in H as (locked & st1 & [H|H]); apply Len_body_raises in H;
      [by eapply nil_or_raised_name, H|done].
  - unfold SaveToDisk in H. simpl in H.
    destruct (SaveToDiskOnSet ps); [injection H as <-; by left|].
    apply guarded_returns in H as (locked & st1 & [H|H]);
      apply SaveToDisk_body_raises in H; [by eapply nil_or_raised_name, H|done].
Qed.

(** C7, as the code has it.  The predicates search the message for the
    marker of their kind.  With a namespace free of [%], every error a
    public operation returns satisfies the predicate of the kind that
    raised it; the predicate of another kind says true exactly when that
    kind's marker occurs in the namespace or in one of the texts printed
    in the message (the key, the underlying error, the type), and false
    otherwise. *)
Theorem errors_answer_to_their_kind (st : state FS) (msg : string) :
  mentions "%" (name st.1) = false →
  returns_error st (Some msg) →
  ∃ m0 texts,
    m0 ∈ markers ∧ raised st.1 m0 texts (Some msg) ∧
    is_kind m0 (Some msg) = inr true ∧
    ∀ m, m ∈ markers → m ≠ m0 →
      is_kind m (Some msg)
      = inr (strings.Contains (name st.1) m
             || existsb (λ t, strings.Contains t m) texts).
Proof.
  intros Hname [?|(m0 & texts & Hm0 & Hr)]%returns_error_raised; [done|].
  exists m0, texts. split; [done|]. split; [done|]. split.
  - rewrite (is_kind_raised _ _ _ _ _ Hname Hr Hm0).
    by rewrite bool_decide_true by done.
  - intros m Hm Hne. rewrite (is_kind_raised _ _ _ _ _ Hname Hr Hm).
    by rewrite bool_decide_false by done.
Qed.

End raised_errors.

(** A key that is not found in an in-memory-only cache. *)
Lemma errors_answer_to_their_kind_witness :
  ∃ m0 texts,
    m0 ∈ markers ∧
    raised (NewInMemory "c") m0 texts (Some "pstore: c: key not found k") ∧
    is_kind m0 (Some "pstore: c: key not found k") = inr true ∧
    ∀ m, m ∈ markers → m ≠ m0 →
      is_kind m (Some "pstore: c: key not found k")
      = inr (strings.Contains "c" m || existsb (λ t, strings.Contains t m) texts).
Proof.
  apply (errors_answer_to_their_kind (NewInMemory "c", (∅ : MemFS.fs))
           "pstore: c: key not found k" eq_refl).
  eapply (Get_error _ "k" (Some (Vptr Tstring (Some (Vstring ""))))). reflexivity.
Defined.

(** The key is the text of another kind's marker: the error of the miss
    satisfies the key-not-found predicate and the delete-failed one. *)
Lemma error_of_one_kind_answers_to_another :
  ∃ out' st',
    Get "failed to delete" (Some (Vptr Tstring (Some (Vstring ""))))
      (NewInMemory "c", (∅ : MemFS.fs))
    = Returned (Some "pstore: c: key not found failed to delete", out') st'
    ∧ IsKeyNotFound (Some "pstore: c: key not found failed to delete") = inr true
    ∧ IsDeleteFailed (Some "pstore: c: key not found failed to delete") = inr true.
Proof. eexists _, _. repeat split. Qed.

(** ** The life of an in-memory-only cache *)

Section in_memory.
Context {FS : Type} `{!Env FS}.

(** No step changes the directory or the namespace, and every step that
    starts with the lock free ends with the lock free. *)
Lemma step_keeps (st st' : state FS) :
  step st st' → mutex st.1 = false →
  path st'.1 = path st.1 ∧ name st'.1 = name st.1 ∧ mutex st'.1 = false.
Proof.
  destruct 1 as [key value seed [ps fs] err [ps' fs'] H|key out [ps fs] r [ps' fs'] H
                |key [ps fs] r st' H|key [ps fs] err st' H|[ps fs] r st' H|[ps fs] r st' H
                |seed [ps fs] err [ps' fs'] H|ps fs limit threadSafe saveOnSet|ps fs fs'];
    simpl; intros Hfree.
  - destruct (ThreadSafe ps) eqn:Hts.
    { by apply Set_ThreadSafe_never_returns in H. }
    rewrite Set_unguarded in H by done. unfold Set_body in H.
    destruct (unwrap value); [done|]. apply set_frame in H as ->. eauto.
  - destruct (ThreadSafe ps) eqn:Hts.
    { by apply Get_ThreadSafe_never_returns in H. }
    rewrite Get_unguarded in H by done. apply get_frame in H as [-> _]. eauto.
  - rewrite Has_unlocked in H by done. unfold Has_body in H.
    destruct (cache ps !! key); [|destruct (os_ReadDir _ _)]; by injection H as <- <-.
  - unfold Delete in H. simpl in H. destruct (inMemory ps); [by injection H as <- <-|].
    destruct (os_RemoveAll _ _) as [[e|] fs1]; by injection H as <- <-.
  - rewrite Keys_unlocked in H by done. unfold Keys_body in H.
    destruct (os_ReadDir _ _); by injection H as <- <-.
  - rewrite Len_unlocked in H by done. unfold Len_body in H.
    destruct (os_ReadDir _ _); by injection H as <- <-.
  - destruct (SaveToDiskOnSet ps) eqn:Hsave.
    { unfold SaveToDisk in H. simpl in H. rewrite Hsave in H. by injection H as <- <- <-. }
    destruct (ThreadSafe ps) eqn:Hts.
    { by apply SaveToDisk_ThreadSafe_never_returns in H. }
    unfold SaveToDisk, if_ThreadSafe_Lock_defer in H. simpl in H.
    rewrite Hsave, Hts in H. unfold SaveToDisk_body in H.
    destruct (SaveToDisk_loop _ _ _). by injection H as <- <- <-.
  - done.
  - done.
Qed.

Lemma NewInMemory_keeps n fs0 (st : state FS) :
  rtc step (NewInMemory n, fs0) st →
  path st.1 = "" ∧ name st.1 = n ∧ mutex st.1 = false.
Proof.
  revert st. apply rtc_ind_r; [done|].
  intros st1 st2 _ Hstep (Hpath & Hname & Hfree).
  destruct (step_keeps _ _ Hstep Hfree) as (-> & -> & ->). done.
Qed.

(** C9. However a cache made by [NewInMemory] has been used since, its
    directory is the empty path, whose listing fails: [Len] and [Keys]
    return the read-files error, and so does [Has] for a key that is not
    in memory. *)
Theorem NewInMemory_listings_fail (n : string) (fs0 : FS) (ps : PersistentStorage) (fs : FS) :
  (∀ s : FS, ∃ e, os_ReadDir "" s = inl e) →
  rtc step (NewInMemory n, fs0) (ps, fs) →
  ∃ e,
    os_ReadDir "" fs = inl e ∧
    let err := errorf ps "%s: %v" [error_read_files_failed; Error e] in
    Len (ps, fs) = Returned ((-1)%Z, err) (ps, fs) ∧
    Keys (ps, fs) = Returned (None, err) (ps, fs) ∧
    (∀ key, cache ps !! key = None → Has key (ps, fs) = Returned (false, err) (ps, fs)) ∧
    raised ps error_read_files_failed [Error e] err ∧
    (mentions "%" n = false → IsReadFilesFailed err = inr true).
Proof.
  intros Hlist (Hpath & Hname & Hfree)%NewInMemory_keeps. simpl in *.
  destruct (Hlist fs) as [e He]. exists e. split; [done|]. simpl.
  split; [|split; [|split; [|split]]].
  - rewrite Len_unlocked by done. unfold Len_body. by rewrite Hpath, He.
  - rewrite Keys_unlocked by done. unfold Keys_body. by rewrite Hpath, He.
  - intros key Hkey. rewrite Has_unlocked by done. unfold Has_body.
    by rewrite Hkey, Hpath, He.
  - constructor.
  - intros Hn. unfold IsReadFilesFailed.
    rewrite (is_kind_raised ps error_read_files_failed [Error e]);
      [by rewrite bool_decide_true by done | by rewrite Hname | constructor
      | unfold markers; set_solver].
Qed.

End in_memory.

Lemma MemFS_ReadDir_empty_path (s : MemFS.fs) : ∃ e, os_ReadDir "" s = inl e.
Proof. by eexists. Qed.

(** A cache fresh from [NewInMemory]. *)
Lemma NewInMemory_listings_fail_witness :
  ∃ e,
    os_ReadDir "" (∅ : MemFS.fs) = inl e ∧
    let err := errorf (NewInMemory "c") "%s: %v" [error_read_files_failed; Error e] in
    Len (NewInMemory "c", (∅ : MemFS.fs)) = Returned ((-1)%Z, err) (NewInMemory "c", ∅) ∧
    Keys (NewInMemory "c", (∅ : MemFS.fs)) = Returned (None, err) (NewInMemory "c", ∅) ∧
    (∀ key, cache (NewInMemory "c") !! key = None →
       Has key (NewInMemory "c", (∅ : MemFS.fs)) = Returned (false, err) (NewInMemory "c", ∅)) ∧
    raised (NewInMemory "c") error_read_files_failed [Error e] err ∧
    (mentions "%" "c" = false → IsReadFilesFailed err = inr true).
Proof.
  apply (NewInMemory_listings_fail "c" ∅ (NewInMemory "c") ∅ MemFS_ReadDir_empty_path).
  apply rtc_refl.
Defined.

Example Len_of_NewInMemory :
  Len (NewInMemory "c", (∅ : MemFS.fs))
  = Returned ((-1)%Z, Some "pstore: c: failed to read files: open : no such file or directory")
      (NewInMemory "c", ∅).
Proof. reflexivity. Qed.

(** * Further properties of the package *)

(** ** File names and the keys read back from them *)

Lemma length_append s t : String.length (s +:+ t) = (String.length s + String.length t)%nat.
Proof. induction s; simpl; congruence. Qed.

Lemma substring_0_0 s : String.substring 0 0 s = "".
Proof. by destruct s. Qed.

Lemma substring_all s : String.substring 0 (String.length s) s = s.
Proof. induction s; simpl; congruence. Qed.

Lemma substring_head s t : String.substring 0 (String.length s) (s +:+ t) = s.
Proof.
  induction s as [|c s IH]; simpl; [apply substring_0_0|]. by rewrite IH.
Qed.

Lemma substring_tail s t m :
  String.substring (String.length s) m (s +:+ t) = String.substring 0 m t.
Proof. induction s; simpl; [done|]. auto. Qed.

Lemma TrimPrefix_app p s : strings.TrimPrefix (p +:+ s) p = s.
Proof.
  unfold strings.TrimPrefix. rewrite HasPrefix_app, substring_tail, length_append.
  replace (String.length p + String.length s - String.length p)%nat
    with (String.length s) by lia.
  apply substring_all.
Qed.

Lemma rev_app_acc s acc : String.rev_app s acc = String.rev_app s "" +:+ acc.
Proof.
  revert acc. induction s as [|c s IH]; intros acc; simpl; [done|].
  rewrite (IH (String c acc)), (IH (String c "")). by rewrite append_assoc.
Qed.

Lemma rev_append s t : String.rev (s +:+ t) = String.rev t +:+ String.rev s.
Proof.
  unfold String.rev. generalize "" at 1 3. induction s as [|c s IH]; intros acc; simpl.
  - apply rev_app_acc.
  - apply IH.
Qed.

Lemma HasSuffix_app s x : strings.HasSuffix (s +:+ x) x = true.
Proof. unfold strings.HasSuffix. rewrite rev_append. apply HasPrefix_app. Qed.

Lemma TrimSuffix_app s x : strings.TrimSuffix (s +:+ x) x = s.
Proof.
  unfold strings.TrimSuffix. rewrite HasSuffix_app, length_append.
  replace (String.length s + String.length x - String.length x)%nat
    with (String.length s) by lia.
  apply substring_head.
Qed.

Section listings.
Context {FS : Type} `{!Env FS}.

(** The name of a key's cache file passes the test of [Len] and [Keys],
    and the key comes back when prefix and suffix are trimmed. *)
Lemma cache_file_name ps key isdir :
  let file := {| Name := getCacheFilename ps key; IsDir := isdir |} in
  is_cache_file ps file = true ∧ key_of ps file = key.
Proof.
  cbv zeta. unfold is_cache_file, key_of, getCacheFilename. cbn [Name].
  replace (name ps +:+ "_" +:+ key +:+ cache_ext)
    with ((name ps +:+ "_") +:+ key +:+ cache_ext) by (by rewrite !append_assoc).
  rewrite HasPrefix_app, TrimPrefix_app, TrimSuffix_app.
  split; [|done].
  replace ((name ps +:+ "_") +:+ key +:+ cache_ext)
    with (((name ps +:+ "_") +:+ key) +:+ cache_ext) by (by rewrite !append_assoc).
  by rewrite HasSuffix_app.
Qed.

Lemma Len_loop_counts ps files count :
  Len_loop ps files count = (count + Z.of_nat (length (cache_files ps files)))%Z.
Proof.
  revert count. induction files as [|file files IH]; intros count; simpl; [lia|].
  destruct (IsDir file); simpl; [apply IH|].
  destruct (is_cache_file ps file); simpl; rewrite IH; lia.
Qed.

Lemma Keys_loop_lists ps files keys :
  Keys_loop ps files keys = keys ++ (key_of ps <$> cache_files ps files).
Proof.
  revert keys. induction files as [|file files IH]; intros keys; simpl.
  { by rewrite app_nil_r. }
  destruct (IsDir file); simpl; [apply IH|].
  destruct (is_cache_file ps file); simpl; [|apply IH].
  rewrite IH. by rewrite <-app_assoc.
Qed.

Lemma Keys_lists ps (fs : FS) :
  (ThreadSafe ps = true → mutex ps = false) →
  Keys (ps, fs)
  = match os_ReadDir (path ps) fs with
    | inl e =>
        Returned (None, errorf ps "%s: %v" [error_read_files_failed; Error e]) (ps, fs)
    | inr files => Returned (Some (key_of ps <$> cache_files ps files), None) (ps, fs)
    end.
Proof.
  intros Hfree. rewrite Keys_unlocked by done. unfold Keys_body.
  destruct (os_ReadDir (path ps) fs) as [e|files]; [done|].
  by rewrite Keys_loop_lists.
Qed.

(** X1. On a cache whose lock is free, [Len] and [Keys] read the same
    listing: either both fail with the same read-files error, [Len] with
    count -1 and [Keys] with the nil slice, or [Keys] returns the keys
    read off the cache files of the listing, in its order, and [Len]
    returns their number; neither changes the cache or the files. *)
Theorem Len_counts_what_Keys_lists (ps : PersistentStorage) (fs : FS) :
  (ThreadSafe ps = true → mutex ps = false) →
  match os_ReadDir (path ps) fs with
  | inl e =>
      let err := errorf ps "%s: %v" [error_read_files_failed; Error e] in
      Len (ps, fs) = Returned ((-1)%Z, err) (ps, fs) ∧
      Keys (ps, fs) = Returned (None, err) (ps, fs)
  | inr files =>
      let keys := key_of ps <$> cache_files ps files in
      Keys (ps, fs) = Returned (Some keys, None) (ps, fs) ∧
      Len (ps, fs) = Returned (Z.of_nat (length keys), None) (ps, fs)
  end.
Proof.
  intros Hfree. rewrite Len_unlocked, Keys_lists by done. unfold Len_body.
  destruct (os_ReadDir (path ps) fs) as [e|files]; simpl; [done|].
  rewrite Len_loop_counts, length_fmap. done.
Qed.

(** X2. A key that [Has] finds on disk is among the keys [Keys] returns:
    the file name built for a key is recognised as a cache file and
    trimmed back to that key, whatever the namespace and the key. *)
Theorem Has_on_disk_is_among_Keys (ps : PersistentStorage) (fs : FS) (key : string) :
  (ThreadSafe ps = true → mutex ps = false) →
  cache ps !! key = None →
  Has key (ps, fs) = Returned (true, None) (ps, fs) →
  ∃ keys, Keys (ps, fs) = Returned (Some keys, None) (ps, fs) ∧ key ∈ keys.
Proof.
  intros Hfree Hmiss. rewrite Has_unlocked by done. unfold Has_body. rewrite Hmiss.
  pose proof (Keys_lists ps fs Hfree) as Hkeys.
  destruct (os_ReadDir (path ps) fs) as [e|files]; [done|].
  intros [= Hfound]. eexists. split; [exact Hkeys|].
  apply Has_loop_spec in Hfound as (file & Hin & Hdir & Hname).
  destruct (cache_file_name ps key (IsDir file)) as [Hcache Hkey]. simpl in *.
  rewrite <-Hname in Hcache, Hkey.
  assert ({| Name := Name file; IsDir := IsDir file |} = file) as Heta by (by destruct file).
  rewrite Heta in Hcache, Hkey.
  apply list_elem_of_fmap. exists file. split; [done|].
  apply list_elem_of_In, List.filter_In. split; [by apply list_elem_of_In|].
  by rewrite Hdir, Hcache.
Qed.

End listings.

(** One cache file on disk: [Keys] returns its key and [Len] counts it. *)
Lemma Len_counts_what_Keys_lists_witness :
  Keys (New "d" "c", MemFS.one_file) = Returned (Some ["a"], None) (New "d" "c", MemFS.one_file)
  ∧ Len (New "d" "c", MemFS.one_file) = Returned (1%Z, None) (New "d" "c", MemFS.one_file).
Proof.
  assert (ThreadSafe (New "d" "c") = true → mutex (New "d" "c") = false) as Hfree by done.
  pose proof (Len_counts_what_Keys_lists (New "d" "c") MemFS.one_file Hfree) as H.
  change (os_ReadDir (path (New "d" "c")) MemFS.one_file)
    with (@inr PathError _ [{| Name := "c_a.pcache"; IsDir := false |}]) in H.
  exact H.
Defined.

Lemma Has_on_disk_is_among_Keys_witness :
  ∃ keys, Keys (New "d" "c", MemFS.one_file) = Returned (Some keys, None) (New "d" "c", MemFS.one_file)
          ∧ "a" ∈ keys.
Proof.
  assert (ThreadSafe (New "d" "c") = true → mutex (New "d" "c") = false) as Hfree by done.
  exact (Has_on_disk_is_among_Keys (New "d" "c") MemFS.one_file "a" Hfree eq_refl eq_refl).
Defined.

(** ** What an operation changes *)

Section changes.
Context {FS : Type} `{!Env FS}.

(** [Has], [Len] and [Keys] return only when the lock was free, and then
    with the state they were called on. *)
Lemma Has_returns key ps (fs : FS) r st' :
  Has key (ps, fs) = Returned r st' →
  st' = (ps, fs) ∧ Has_body key (ps, fs) = Returned r (ps, fs).
Proof.
  intros H. assert (ThreadSafe ps = true → mutex ps = false) as Hfree.
  { intros Hts. unfold Has, if_ThreadSafe_Lock_defer, mutex_Lock in H. simpl in H.
    rewrite Hts in H. by destruct (mutex ps). }
  rewrite Has_unlocked in H by done. unfold Has_body in *.
  destruct (cache ps !! key); [|destruct (os_ReadDir _ _)]; by injection H as <- <-.
Qed.

Lemma Len_returns ps (fs : FS) r st' :
  Len (ps, fs) = Returned r st' → st' = (ps, fs) ∧ Len_body (ps, fs) = Returned r (ps, fs).
Proof.
  intros H. assert (ThreadSafe ps = true → mutex ps = false) as Hfree.
  { intros Hts. unfold Len, if_ThreadSafe_Lock_defer, mutex_Lock in H. simpl in H.
    rewrite Hts in H. by destruct (mutex ps). }
  rewrite Len_unlocked in H by done. unfold Len_body in *.
  destruct (os_ReadDir _ _); by injection H as <- <-.
Qed.

Lemma Keys_returns ps (fs : FS) r st' :
  Keys (ps, fs) = Returned r st' → st' = (ps, fs) ∧ Keys_body (ps, fs) = Returned r (ps, fs).
Proof.
  intros H. assert (ThreadSafe ps = true → mutex ps = false) as Hfree.
  { intros Hts. unfold Keys, if_ThreadSafe_Lock_defer, mutex_Lock in H. simpl in H.
    rewrite Hts in H. by destruct (mutex ps). }
  rewrite Keys_unlocked in H by done. unfold Keys_body in *.
  destruct (os_ReadDir _ _); by injection H as <- <-.
Qed.

Lemma Get_returns key out ps (fs : FS) r st' :
  Get key out (ps, fs) = Returned r st' →
  ThreadSafe ps = false ∧ get out key (ps, fs) = Returned r st'.
Proof.
  intros H. destruct (ThreadSafe ps) eqn:Hts.
  { by apply Get_ThreadSafe_never_returns in H. }
  by rewrite Get_unguarded in H.
Qed.

Lemma SaveToDisk_returns seed ps (fs : FS) err st' :
  SaveToDisk seed (ps, fs) = Returned err st' →
  (SaveToDiskOnSet ps = true ∧ err = None ∧ st' = (ps, fs))
  ∨ (SaveToDiskOnSet ps = false ∧ ThreadSafe ps = false
     ∧ SaveToDisk_body seed (ps, fs) = Returned err st').
Proof.
  intros H. destruct (SaveToDiskOnSet ps) eqn:Hsave.
  { left. unfold SaveToDisk in H. simpl in H. rewrite Hsave in H. by injection H as <- <-. }
  right. destruct (ThreadSafe ps) eqn:Hts.
  { by apply SaveToDisk_ThreadSafe_never_returns in H. }
  unfold SaveToDisk, if_ThreadSafe_Lock_defer in H. simpl in H.
  by rewrite Hsave, Hts in H.
Qed.

Lemma saveToDisk_in_memory ps key value (fs : FS) :
  inMemory ps = true → saveToDisk ps key value fs = (None, fs).
Proof. intros H. unfold saveToDisk. by rewrite H. Qed.

Lemma SaveToDisk_loop_in_memory ps entries (fs : FS) :
  inMemory ps = true → SaveToDisk_loop ps entries fs = (None, fs).
Proof.
  intros H. induction entries as [|[k v] entries IH]; simpl; [done|].
  by rewrite saveToDisk_in_memory.
Qed.

(** X3. A public operation that returns has changed nothing of the cache
    but its in-memory map: the directory, the namespace, the three
    exported settings, the in-memory-only flag and the state of the lock
    are what they were. *)
Theorem call_changes_only_the_map (ps : PersistentStorage) (fs : FS)
    (ps' : PersistentStorage) (fs' : FS) :
  call (ps, fs) (ps', fs') → ps' = with_cache ps (cache ps').
Proof.
  intros Hcall.
  inversion Hcall as [key value seed st err st' H|key out st r st' H|key st r st' H
                 |key st err st' H|st r st' H|st r st' H|seed st err st' H]; subst.
  - by apply Set_step in H as (_ & ? & _).
  - by apply Get_returns in H as [_ [? _]%get_frame].
  - apply Has_returns in H as [[= -> ->] _]. by rewrite with_cache_id.
  - unfold Delete in H. simpl in H. destruct (inMemory ps); [by injection H as <- <-|].
    destruct (os_RemoveAll _ _) as [[e|] fs1]; by injection H as <- <-.
  - apply Keys_returns in H as [[= -> ->] _]. by rewrite with_cache_id.
  - apply Len_returns in H as [[= -> ->] _]. by rewrite with_cache_id.
  - apply SaveToDisk_returns in H as [(_ & _ & [= -> ->])|(_ & _ & Hbody)].
    + by rewrite with_cache_id.
    + unfold SaveToDisk_body in Hbody. destruct (SaveToDisk_loop _ _ _).
      injection Hbody as <- <- <-. by rewrite with_cache_id.
Qed.

(** X4. No public operation of an in-memory-only cache changes the file
    system: [Set] and [SaveToDisk] skip the save, [Delete] skips the
    removal and [Get] skips the read. *)
Theorem in_memory_only_leaves_files_alone (ps : PersistentStorage) (fs : FS)
    (ps' : PersistentStorage) (fs' : FS) :
  inMemory ps = true → call (ps, fs) (ps', fs') → fs' = fs.
Proof.
  intros Hmem Hcall.
  inversion Hcall as [key value seed st err st' H|key out st r st' H|key st r st' H
                 |key st err st' H|st r st' H|st r st' H|seed st err st' H]; subst.
  - apply Set_step in H as (_ & _ & it & _ & Hset). unfold set in Hset. simpl in Hset.
    rewrite saveToDisk_in_memory in Hset by done.
    destruct (SaveToDiskOnSet ps);
      (destruct (_ && _); [destruct (range _ _) as [|[? ?] ?]|]);
      by injection Hset as <- <-.
  - by apply Get_returns in H as [_ [_ ?]%get_frame].
  - by apply Has_returns in H as [[= -> ->] _].
  - unfold Delete in H. simpl in H. rewrite Hmem in H. by injection H as <- <-.
  - by apply Keys_returns in H as [[= -> ->] _].
  - by apply Len_returns in H as [[= -> ->] _].
  - apply SaveToDisk_returns in H as [(_ & _ & [= -> ->])|(_ & _ & Hbody)]; [done|].
    unfold SaveToDisk_body in Hbody. rewrite SaveToDisk_loop_in_memory in Hbody by done.
    by injection Hbody as <- <-.
Qed.

(** X5. With [SaveToDiskOnSet] unset, a [Set] that returns has returned no
    error and has left the file system as it was. *)
Theorem Set_without_saving_stays_in_memory (ps : PersistentStorage) (fs : FS)
    (key : string) (value : any) (seed : nat → nat) (err : error)
    (ps' : PersistentStorage) (fs' : FS) :
  SaveToDiskOnSet ps = false →
  Set_ key value seed (ps, fs) = Returned err (ps', fs') →
  err = None ∧ fs' = fs.
Proof.
  intros Hsave (_ & _ & it & _ & H)%Set_step. unfold set in H. simpl in H.
  rewrite Hsave in H.
  destruct (_ && _); [destruct (range _ _) as [|[? ?] ?]|]; by injection H as <- <- <-.
Qed.

(** X6. A [Set] that returns an error has failed to save on a disk-backed
    cache that saves on [Set], and has all the same left the entry in the
    in-memory map, with nothing evicted: memory holds a value the disk
    does not. *)
Theorem failed_Set_keeps_the_entry (ps : PersistentStorage) (fs : FS)
    (key : string) (value : any) (seed : nat → nat) (e : string)
    (ps' : PersistentStorage) (fs' : FS) :
  Set_ key value seed (ps, fs) = Returned (Some e) (ps', fs') →
  SaveToDiskOnSet ps = true ∧ inMemory ps = false ∧
  ∃ it, unwrap value = inr it ∧ cache ps' = <[key := it]> (cache ps).
Proof.
  intros (_ & _ & it & Hit & H)%Set_step. unfold set in H. simpl in H.
  destruct (SaveToDiskOnSet ps).
  - destruct (inMemory ps) eqn:Hmem.
    { rewrite saveToDisk_in_memory in H by done.
      destruct (_ && _); [destruct (range _ _) as [|[? ?] ?]|]; by injection H. }
    destruct (saveToDisk _ _ _ _) as [[e1|] fs1].
    + injection H as _ <- _. eauto.
    + destruct (_ && _); [destruct (range _ _) as [|[? ?] ?]|]; by injection H.
  - destruct (_ && _); [destruct (range _ _) as [|[? ?] ?]|]; by injection H.
Qed.

(** X7. A limit made by [MemoryItemsCount] from a negative count switches
    eviction off: a [Set] that returns no error has inserted the entry
    and kept every other one. *)
Theorem negative_count_disables_eviction (n : Z) (ps : PersistentStorage) (fs : FS)
    (key : string) (value : any) (seed : nat → nat)
    (ps' : PersistentStorage) (fs' : FS) :
  (n < 0)%Z → MaxMemItems ps = MemoryItemsCount n →
  Set_ key value seed (ps, fs) = Returned None (ps', fs') →
  ∃ it, unwrap value = inr it ∧ cache ps' = <[key := it]> (cache ps).
Proof.
  intros Hn Hmax (_ & _ & it & Hit & H)%Set_step. exists it. split; [done|].
  apply set_cache in H. simpl in H. rewrite Hmax in H. unfold MemoryItemsCount in H.
  replace (n <? 0)%Z with true in H by (symmetry; by apply Z.ltb_lt).
  rewrite bool_decide_false in H by (by intros []). done.
Qed.

End changes.

Lemma call_changes_only_the_map_witness :
  ∃ ps' fs',
    Set_ "k" (Some (Vstring "v")) (λ _, 0%nat) (New "d" "c", (∅ : MemFS.fs))
    = Returned None (ps', fs')
    ∧ ps' = with_cache (New "d" "c") (cache ps').
Proof.
  eexists _, _. split; [reflexivity|].
  eapply (call_changes_only_the_map (New "d" "c") (∅ : MemFS.fs)).
  eapply (call_Set "k" (Some (Vstring "v")) (λ _, 0%nat)). reflexivity.
Defined.

Lemma in_memory_only_leaves_files_alone_witness :
  ∃ ps' fs',
    Set_ "k" (Some (Vstring "v")) (λ _, 0%nat) (NewInMemory "c", MemFS.one_file)
    = Returned None (ps', fs')
    ∧ fs' = MemFS.one_file.
Proof.
  eexists _, _. split; [reflexivity|].
  eapply (in_memory_only_leaves_files_alone (NewInMemory "c") MemFS.one_file); [reflexivity|].
  eapply (call_Set "k" (Some (Vstring "v")) (λ _, 0%nat)). reflexivity.
Defined.

Lemma Set_without_saving_stays_in_memory_witness :
  ∃ err ps' fs',
    Set_ "k" (Some (Vstring "v")) (λ _, 0%nat)
      (with_SaveToDiskOnSet (New "d" "c") false, (∅ : MemFS.fs)) = Returned err (ps', fs')
    ∧ err = None ∧ fs' = ∅.
Proof.
  eexists _, _, _. split; [reflexivity|].
  exact (Set_without_saving_stays_in_memory (with_SaveToDiskOnSet (New "d" "c") false)
           (∅ : MemFS.fs) "k" (Some (Vstring "v")) (λ _, 0%nat) _ _ _ eq_refl eq_refl).
Defined.

(** A disk-backed cache whose directory is the empty path cannot save. *)
Lemma failed_Set_keeps_the_entry_witness :
  ∃ ps' fs',
    Set_ "k" (Some (Vstring "v")) (λ _, 0%nat) (New "" "c", (∅ : MemFS.fs))
    = Returned (Some "pstore: c: failed to save k: mkdir : no such file or directory") (ps', fs')
    ∧ cache ps' !! "k" = Some (Some (Vstring "v")).
Proof.
  assert (∃ ps' fs',
            Set_ "k" (Some (Vstring "v")) (λ _, 0%nat) (New "" "c", (∅ : MemFS.fs))
            = Returned (Some "pstore: c: failed to save k: mkdir : no such file or directory")
                (ps', fs')) as (ps' & fs' & Hcall)
    by (eexists _, _; reflexivity).
  exists ps', fs'. split; [exact Hcall|].
  destruct (failed_Set_keeps_the_entry _ _ _ _ _ _ _ _ Hcall) as (_ & _ & it & Hit & Hcache).
  injection Hit as <-. rewrite Hcache. reflexivity.
Defined.

Lemma negative_count_disables_eviction_witness :
  ∃ ps' fs',
    Set_ "k" (Some (Vstring "v")) (λ _, 0%nat)
      (with_MaxMemItems (NewInMemory "c") (MemoryItemsCount (-5)), (∅ : MemFS.fs))
    = Returned None (ps', fs')
    ∧ cache ps' = <[ "k" := Some (Vstring "v") ]> ∅.
Proof.
  assert (∃ ps' fs',
            Set_ "k" (Some (Vstring "v")) (λ _, 0%nat)
              (with_MaxMemItems (NewInMemory "c") (MemoryItemsCount (-5)), (∅ : MemFS.fs))
            = Returned None (ps', fs')) as (ps' & fs' & Hcall)
    by (eexists _, _; reflexivity).
  exists ps', fs'. split; [exact Hcall|].
  assert ((-5 < 0)%Z) as Hneg by lia.
  destruct (negative_count_disables_eviction (-5)
              (with_MaxMemItems (NewInMemory "c") (MemoryItemsCount (-5))) _ _ _ _ _ _
              Hneg eq_refl Hcall)
    as (it & Hit & Hcache).
  injection Hit as <-. exact Hcache.
Defined.

(** ** Across instances, and after Delete *)

Section persistence.
Context {FS : Type} `{!Env FS}.

(** X8. What a [Set] has saved, a new cache made by [New] over the same
    directory and namespace reads back: after a [Set] of a value that is
    not a pointer, returning no error on a disk-backed cache that saves on
    [Set], [Get] of the key on the new, empty cache returns no error and
    yields the value, given a file store that reads back what it wrote
    and a codec that decodes what it encoded. *)
Theorem new_instance_reads_what_Set_saved (ps : PersistentStorage) (fs : FS) (key : string)
    (v : value) (seed : nat → nat) (ps1 : PersistentStorage) (fs1 : FS)
    (elem : type) (content : any) :
  inMemory ps = false → SaveToDiskOnSet ps = true →
  unwrap (Some v) = inr (Some v) →
  Set_ key (Some v) seed (ps, fs) = Returned None (ps1, fs1) →
  (∀ p data perm s s',
     os_WriteFile p data perm s = (None, s') → os_ReadFile p s' = inr data) →
  (∀ data, gob_Encode (Some v) = (data, None) →
     gob_Decode data elem content = (Some v, None)) →
  Get key (Some (Vptr elem content)) (New (path ps) (name ps), fs1)
  = Returned (None, Some (Vptr elem (Some v))) (New (path ps) (name ps), fs1).
Proof.
  intros Hdisk Hsave Hval Hcall Hfs Hcodec.
  destruct (Set_step _ _ _ _ _ _ _ _ Hcall) as (_ & _ & it & Hit & Hset).
  rewrite Hval in Hit. injection Hit as <-.
  destruct (set_saved _ _ _ _ _ _ _ Hsave Hdisk Hset) as (data & fs0 & Henc & Hwrite).
  rewrite Get_unguarded by done. apply get_disk_hit; [done|done|].
  unfold readFromDisk. simpl inMemory. cbv iota.
  change (getCachePath (New (path ps) (name ps)) key) with (getCachePath ps key).
  rewrite (Hfs _ _ _ _ _ Hwrite). simpl. by rewrite (Hcodec _ Henc).
Qed.

(** X9. After a [Delete] that returns no error, [Get] of the key through a
    valid pointer reports key-not-found and stores nothing through the
    pointer, in an in-memory-only cache and, given a file store in which a
    removed path is not found, in a disk-backed one. *)
Theorem Get_after_Delete_is_key_not_found (ps : PersistentStorage) (fs : FS) (key : string)
    (ps' : PersistentStorage) (fs' : FS) (elem : type) (content : any) :
  ThreadSafe ps = false →
  Delete key (ps, fs) = Returned None (ps', fs') →
  inMemory ps = true
  ∨ (∀ p s s', os_RemoveAll p s = (None, s') →
       ∃ e, os_ReadFile p s' = inl e ∧ IsNotExist e = true) →
  ∃ st'',
    Get key (Some (Vptr elem content)) (ps', fs')
    = Returned (errorf ps "%s %v" [error_key_not_found; key], Some (Vptr elem content)) st''.
Proof.
  intros Hts Hdel Hgone. unfold Delete in Hdel. simpl in Hdel.
  destruct (inMemory ps) eqn:Hmem.
  - injection Hdel as <- <-. rewrite Get_unguarded by done. unfold get. simpl.
    rewrite lookup_delete_eq. unfold readFromDisk. simpl. rewrite Hmem. simpl. eauto.
  - destruct Hgone as [|Hgone]; [done|].
    change (getCachePath (with_cache ps (delete key (cache ps))) key)
      with (getCachePath ps key) in Hdel.
    destruct (os_RemoveAll (getCachePath ps key) fs) as [[e|] fs1] eqn:Hrm;
      [done|]. injection Hdel as <- <-.
    destruct (Hgone _ _ _ Hrm) as (e & Hread & Hnot).
    rewrite Get_unguarded by done. unfold get. simpl.
    rewrite lookup_delete_eq. unfold readFromDisk. simpl. rewrite Hmem.
    change (getCachePath (with_cache ps (delete key (cache ps))) key)
      with (getCachePath ps key).
    rewrite Hread, Hnot. simpl. eauto.
Qed.

End persistence.

Lemma new_instance_reads_what_Set_saved_witness :
  ∃ ps1 fs1,
    Set_ "k" (Some (Vstring "v")) (λ _, 0%nat) (New "d" "c", (∅ : MemFS.fs))
    = Returned None (ps1, fs1)
    ∧ Get "k" (Some (Vptr Tstring (Some (Vstring "")))) (New "d" "c", fs1)
      = Returned (None, Some (Vptr Tstring (Some (Vstring "v")))) (New "d" "c", fs1).
Proof.
  assert (∃ ps1 fs1,
            Set_ "k" (Some (Vstring "v")) (λ _, 0%nat) (New "d" "c", (∅ : MemFS.fs))
            = Returned None (ps1, fs1)) as (ps1 & fs1 & Hcall)
    by (eexists _, _; reflexivity).
  exists ps1, fs1. split; [exact Hcall|].
  apply (new_instance_reads_what_Set_saved (New "d" "c") ∅ "k" (Vstring "v") (λ _, 0%nat)
           ps1 fs1 Tstring (Some (Vstring "")) eq_refl eq_refl eq_refl Hcall).
  - apply MemFS_read_after_write.
  - intros data. by apply MemFS_codec_round_trip.
Defined.

Lemma MemFS_removed_is_not_found (p : string) (s s' : MemFS.fs) :
  os_RemoveAll p s = (None, s') → ∃ e, os_ReadFile p s' = inl e ∧ IsNotExist e = true.
Proof.
  simpl. unfold MemFS.RemoveAll, MemFS.ReadFile, MemFS.lookup_file.
  assert (∀ o : option (list Byte.byte),
            o = None → ∃ e, match o with
                            | Some data => inr data
                            | None => inl (MemFS.ENOENT "open" p)
                            end = inl e ∧ IsNotExist e = true) as Hnone.
  { intros o ->. by eexists. }
  destruct (MemFS.dir_base p) as [[d|] b]; [|intros _; by eexists].
  destruct (s !! d) as [files|] eqn:Hd; intros [= <-]; apply Hnone.
  - destruct (decide (p = d)) as [->|Hne].
    + by rewrite lookup_delete_eq.
    + rewrite lookup_delete_ne, lookup_insert_eq by done. simpl.
      by rewrite lookup_delete_eq.
  - destruct (decide (p = d)) as [->|Hne].
    + by rewrite lookup_delete_eq.
    + by rewrite lookup_delete_ne, Hd by done.
Qed.

(** A key is set, deleted and asked for in a disk-backed cache. *)
Lemma Get_after_Delete_is_key_not_found_witness :
  ∃ ps' fs' st'',
    Delete "a" (New "d" "c", MemFS.one_file) = Returned None (ps', fs')
    ∧ Get "a" (Some (Vptr Tstring (Some (Vstring "")))) (ps', fs')
      = Returned (Some "pstore: c: key not found a", Some (Vptr Tstring (Some (Vstring "")))) st''.
Proof.
  assert (∃ ps' fs', Delete "a" (New "d" "c", MemFS.one_file) = Returned None (ps', fs'))
    as (ps' & fs' & Hdel) by (eexists _, _; reflexivity).
  destruct (Get_after_Delete_is_key_not_found (New "d" "c") MemFS.one_file "a" ps' fs'
              Tstring (Some (Vstring "")) eq_refl Hdel
              (or_intror MemFS_removed_is_not_found)) as [st'' Hget].
  exists ps', fs', st''. split; [exact Hdel|exact Hget].
Defined.

(** ** Get and Set at the edges *)

Section edges.
Context {FS : Type} `{!Env FS}.

(** X10. [Get] into something that is not a pointer returns the
    expected-pointer error, which names the type of what it was given, and
    changes nothing; with a namespace free of [%] the error satisfies
    [IsExpectedPointer]. *)
Theorem Get_into_non_pointer (ps : PersistentStorage) (fs : FS) (key : string) (v : value) :
  ThreadSafe ps = false →
  reflect.Type_Kind (typeof v) ≠ reflect.Ptr →
  let err := errorf ps "%s but got type %v" [error_expected_pointer; type_String (typeof v)] in
  Get key (Some v) (ps, fs) = Returned (err, Some v) (ps, fs) ∧
  (mentions "%" (name ps) = false → IsExpectedPointer err = inr true).
Proof.
  intros Hts Hkind. simpl. split.
  - rewrite Get_unguarded by done. unfold get. simpl.
    by rewrite bool_decide_true by done.
  - intros Hname. unfold IsExpectedPointer.
    rewrite (is_kind_raised ps error_expected_pointer [type_String (typeof v)]);
      [by rewrite bool_decide_true by done | done | constructor
      | unfold markers; set_solver].
Qed.

(** X11. [Get] of a key held in memory never returns an error: through a
    valid pointer it yields the entry when the entry can be assigned to
    the target, leaving the cache as it was, and panics in [reflect.Set]
    when it cannot or when the entry is nil. *)
Theorem Get_from_memory_yields_or_panics (ps : PersistentStorage) (fs : FS) (key : string)
    (it : any) (elem : type) (content : any) :
  ThreadSafe ps = false →
  cache ps !! key = Some it →
  Get key (Some (Vptr elem content)) (ps, fs)
  = match it with
    | Some v =>
        if reflect.assignable (typeof v) elem
        then Returned (None, Some (Vptr elem (Some v))) (ps, fs)
        else Panicked (reflect.panic_Set_type (typeof v) elem) (ps, fs)
    | None => Panicked reflect.panic_Set_zero (ps, fs)
    end.
Proof.
  intros Hts Hmem. rewrite Get_unguarded by done. unfold get. simpl. rewrite Hmem.
  destruct it as [v|]; simpl; [|done]. by destruct (reflect.assignable _ _).
Qed.

(** What the loop of [Set] ends with is a value, and not a pointer. *)
Lemma unwrap_value_plain :
  ∀ v it, unwrap_value v = inr it →
          ∃ v', it = Some v' ∧ reflect.Type_Kind (typeof v') ≠ reflect.Ptr.
Proof.
  fix IH 1. intros v it.
  destruct v as [b|n|s|sname fields|t items|kt vt entries|t|t [target|]]; simpl;
    try (intros [= <-]; eexists; split; [reflexivity|discriminate]); try discriminate.
  apply IH.
Qed.

(** Every entry left by [set] was in the map or is the one inserted. *)
Lemma set_entries key value seed ps (fs : FS) err ps' fs' :
  set key value seed (ps, fs) = Returned err (ps', fs') →
  ∀ k it, cache ps' !! k = Some it → (<[key := value]> (cache ps)) !! k = Some it.
Proof.
  unfold set. simpl.
  destruct (if SaveToDiskOnSet ps then _ else _) as [[e|] fs1]; [by intros [= _ <- _]|].
  destruct (_ && _); [destruct (range _ _) as [|[k0 v0] l]|]; intros [= _ <- _]; try done.
  simpl. intros k it Hk. destruct (decide (k0 = k)) as [->|Hne].
  - by rewrite lookup_delete_eq in Hk.
  - by rewrite lookup_delete_ne in Hk.
Qed.

(** X12. [Set] stores what a chain of pointers leads to and never a
    pointer or nil: if every entry of the in-memory map is a value that is
    not a pointer, the same holds after a [Set] that returns, with or
    without an error. *)
Theorem Set_stores_no_pointer (ps : PersistentStorage) (fs : FS) (key : string)
    (value : any) (seed : nat → nat) (err : error) (ps' : PersistentStorage) (fs' : FS) :
  (∀ k it, cache ps !! k = Some it →
     ∃ v, it = Some v ∧ reflect.Type_Kind (typeof v) ≠ reflect.Ptr) →
  Set_ key value seed (ps, fs) = Returned err (ps', fs') →
  ∀ k it, cache ps' !! k = Some it →
    ∃ v, it = Some v ∧ reflect.Type_Kind (typeof v) ≠ reflect.Ptr.
Proof.
  intros Hplain (_ & _ & stored & Hstored & Hset)%Set_step k it Hk.
  apply (set_entries _ _ _ _ _ _ _ _ Hset) in Hk.
  destruct (decide (key = k)) as [->|Hne].
  - rewrite lookup_insert_eq in Hk. injection Hk as <-.
    unfold unwrap in Hstored. destruct value as [v|]; [|done].
    by eapply unwrap_value_plain.
  - rewrite lookup_insert_ne in Hk by done. by eapply Hplain.
Qed.

(** X13. A pointer given to [Set] stands for its target: [Set] of a
    pointer to [v] does what [Set] of [v] does, at every depth, and [Set]
    of a nil pointer or of a pointer to a nil interface returns no error
    but panics (or, with [ThreadSafe] set, blocks). *)
Theorem Set_of_pointer_is_Set_of_target (key : string) (seed : nat → nat) (st : state FS)
    (elem : type) :
  (∀ v, Set_ key (Some (Vptr elem (Some v))) seed st = Set_ key (Some v) seed st) ∧
  Set_body key (Some (Vnilptr elem)) seed st = Panicked reflect.panic_Interface_zero st ∧
  Set_body key (Some (Vptr elem None)) seed st = Panicked reflect.panic_nil_Type st ∧
  (∀ err st', Set_ key (Some (Vnilptr elem)) seed st ≠ Returned err st') ∧
  (∀ err st', Set_ key (Some (Vptr elem None)) seed st ≠ Returned err st').
Proof.
  split; [done|]. split; [done|]. split; [done|].
  destruct st as [ps fs].
  split; intros err [ps' fs'] H; apply Set_step in H as (_ & _ & it & Hit & _); done.
Qed.

End edges.

Lemma Get_into_non_pointer_witness :
  Get "k" (Some (Vint 7)) (NewInMemory "c", (∅ : MemFS.fs))
  = Returned (Some "pstore: c: expected pointer but got type int", Some (Vint 7))
      (NewInMemory "c", ∅)
  ∧ (mentions "%" "c" = false
     → IsExpectedPointer (Some "pstore: c: expected pointer but got type int") = inr true).
Proof.
  assert (reflect.Type_Kind (typeof (Vint 7)) ≠ reflect.Ptr) as Hkind by discriminate.
  exact (Get_into_non_pointer (NewInMemory "c") (∅ : MemFS.fs) "k" (Vint 7) eq_refl Hkind).
Defined.

(** The number 42 is in memory and is asked for as a string. *)
Lemma Get_from_memory_yields_or_panics_witness :
  Get "a" (Some (Vptr Tstring (Some (Vstring ""))))
    (with_cache (NewInMemory "c") {[ "a" := Some (Vint 42) ]}, (∅ : MemFS.fs))
  = Panicked "reflect.Set: value of type int is not assignable to type string"
      (with_cache (NewInMemory "c") {[ "a" := Some (Vint 42) ]}, ∅).
Proof.
  exact (Get_from_memory_yields_or_panics
           (with_cache (NewInMemory "c") {[ "a" := Some (Vint 42) ]}) (∅ : MemFS.fs) "a"
           (Some (Vint 42)) Tstring (Some (Vstring "")) eq_refl eq_refl).
Defined.

(** A pointer to a pointer to a struct is stored as the struct. *)
Lemma Set_stores_no_pointer_witness :
  ∃ ps' fs',
    Set_ "k" (Some (Vptr (Tptr (Tstruct "T"))
                      (Some (Vptr (Tstruct "T") (Some (Vstruct "T" [("Value", Vstring "v")]))))))
      (λ _, 0%nat) (NewInMemory "c", (∅ : MemFS.fs)) = Returned None (ps', fs')
    ∧ ∀ k it, cache ps' !! k = Some it →
        ∃ v, it = Some v ∧ reflect.Type_Kind (typeof v) ≠ reflect.Ptr.
Proof.
  assert (∃ ps' fs',
            Set_ "k" (Some (Vptr (Tptr (Tstruct "T"))
                      (Some (Vptr (Tstruct "T") (Some (Vstruct "T" [("Value", Vstring "v")]))))))
              (λ _, 0%nat) (NewInMemory "c", (∅ : MemFS.fs)) = Returned None (ps', fs'))
    as (ps' & fs' & Hcall) by (eexists _, _; reflexivity).
  exists ps', fs'. split; [exact Hcall|].
  apply (Set_stores_no_pointer (NewInMemory "c") _ _ _ _ _ _ _) with (2 := Hcall).
  intros k it Hk. simpl in Hk. by rewrite lookup_empty in Hk.
Defined.

(** ** Messages *)

Lemma substring_prefix p s :
  (String.length p ≤ String.length s)%nat →
  bool_decide (String.substring 0 (String.length p) s = p) = strings.HasPrefix s p.
Proof.
  revert s. induction p as [|c p IH]; intros s Hlen; simpl.
  { rewrite substring_0_0. by destruct s. }
  destruct s as [|d s]; simpl in *; [lia|].
  rewrite <-IH by lia. destruct (Ascii.eqb c d) eqn:Hcd.
  - apply Ascii.eqb_eq in Hcd as ->. apply bool_decide_ext. split; congruence.
  - apply bool_decide_eq_false. intros [= -> _]. by rewrite Ascii.eqb_refl in Hcd.
Qed.

Lemma Contains_cons_r c s m : strings.Contains s m = true → strings.Contains (String c s) m = true.
Proof. intros H. rewrite Contains_cons, H. apply orb_true_r. Qed.

Lemma Contains_prefix s t : strings.Contains (s +:+ t) s = true.
Proof.
  destruct s as [|c s]; [by destruct t|].
  rewrite (Contains_cons c (s +:+ t)).
  change (String c (s +:+ t)) with (String c s +:+ t). by rewrite HasPrefix_app.
Qed.

Lemma Contains_refl s : strings.Contains s s = true.
Proof. rewrite <-(append_nil_r s) at 1. apply Contains_prefix. Qed.

Lemma Contains_here s m : strings.HasPrefix s m = true → strings.Contains s m = true.
Proof. intros H. destruct s; simpl in *; by rewrite H. Qed.

(** Find a text in a message by walking to the place where it starts. *)
Ltac find_text :=
  repeat first [ apply Contains_refl | apply Contains_prefix
               | solve [apply Contains_here; reflexivity]
               | apply Contains_app_r | apply Contains_cons_r ].

Section messages.
Context {FS : Type} `{!Env FS}.

(** X14. [IsPStoreError] and with it every [Is...] predicate panic on an
    error whose message is shorter than the prefix, the eight bytes of
    ["pstore: "]; on a longer message [IsPStoreError] says whether the
    message starts with the prefix, and on the nil error it says false. *)
Theorem IsPStoreError_on_any_error (msg marker : string) :
  IsPStoreError None = inr false ∧
  ((String.length msg < 8)%nat →
   (∃ why, IsPStoreError (Some msg) = inl why) ∧ ∃ why, is_kind marker (Some msg) = inl why) ∧
  ((8 ≤ String.length msg)%nat →
   IsPStoreError (Some msg) = inr (strings.HasPrefix msg error_prefix)).
Proof.
  split; [done|]. unfold is_kind, IsPStoreError, slice_to. simpl String.length.
  split; intros Hlen.
  - replace (8 <=? String.length msg)%nat with false
      by (symmetry; apply Nat.leb_gt; lia).
    split; by eexists.
  - replace (8 <=? String.length msg)%nat with true
      by (symmetry; apply Nat.leb_le; lia).
    f_equal. by apply (substring_prefix error_prefix).
Qed.

(** X15. With a namespace free of [%], the message of every error the
    package raises starts with ["pstore: "] and contains the namespace,
    the marker of its kind and each text printed after it: the key, the
    underlying error, the type. *)
Theorem messages_carry_namespace_and_texts (ps : PersistentStorage) (m : string)
    (texts : list string) (msg : string) :
  mentions "%" (name ps) = false →
  raised ps m texts (Some msg) →
  strings.HasPrefix msg error_prefix = true ∧
  strings.Contains msg (name ps) = true ∧
  strings.Contains msg m = true ∧
  ∀ t, t ∈ texts → strings.Contains msg t = true.
Proof.
  intros Hname Hr. remember (Some msg) as err eqn:Herr.
  destruct Hr.
  all: match goal with
       | H : errorf ?p ?f (?m0 :: ?args) = Some _ |- _ =>
           let rest := eval vm_compute in (String.substring 2 (String.length f) f) in
           rewrite (errorf_marker p rest m0 args Hname) in H; injection H as <-
       end.
  all: split; [exact (HasPrefix_app "pstore: " _)|].
  all: split; [solve [find_text]|].
  all: split; [solve [find_text]|].
  all: intros text Ht; simpl fmt.Sprintf; rewrite ?append_nil_r;
    repeat (apply elem_of_cons in Ht as [->|Ht]); try (by apply elem_of_nil in Ht);
    solve [find_text].
Qed.

End messages.

(** [io.EOF], and an error of some other package. *)
Lemma IsPStoreError_on_any_error_witness :
  (∃ why, IsKeyNotFound (Some "EOF") = inl why)
  ∧ IsPStoreError (Some "unexpected EOF") = inr false.
Proof.
  destruct (IsPStoreError_on_any_error "EOF" error_key_not_found) as (_ & Hshort & _).
  destruct (IsPStoreError_on_any_error "unexpected EOF" error_key_not_found)
    as (_ & _ & Hlong).
  split.
  - apply Hshort. simpl. lia.
  - rewrite Hlong by (simpl; lia). reflexivity.
Defined.

Lemma messages_carry_namespace_and_texts_witness :
  strings.HasPrefix "pstore: c: failed to delete k: permission denied" error_prefix = true ∧
  strings.Contains "pstore: c: failed to delete k: permission denied" "c" = true ∧
  strings.Contains "pstore: c: failed to delete k: permission denied" error_delete_failed = true ∧
  ∀ t, t ∈ ["k"; "permission denied"] →
       strings.Contains "pstore: c: failed to delete k: permission denied" t = true.
Proof.
  apply (messages_carry_namespace_and_texts (NewInMemory "c") error_delete_failed
           ["k"; "permission denied"] _ eq_refl).
  apply (raised_delete (FS := MemFS.fs) (NewInMemory "c") "k" "permission denied").
Defined.

(** ** SaveToDisk *)

Section SaveToDisk_properties.
Context {FS : Type} `{!Env FS}.




End SaveToDisk_properties.


(** ** The earlier revision: listing the in-memory map *)

Section earlier_properties.
Context {FS : Type} `{!Env FS}.

Lemma earlier_Keys_loop_lists (entries : list (string * any)) keys :
  earlier.Keys_loop entries keys = keys ++ entries.*1.
Proof.
  revert keys. induction entries as [|[k v] entries IH]; intros keys; simpl.
  - by rewrite app_nil_r.
  - rewrite IH. by rewrite <-app_assoc.
Qed.

(** X17. In the earlier revision, on a cache whose lock is free, [Keys]
    returns every key of the in-memory map exactly once, in whatever order
    the loop takes, [Len] returns their number and [Has] says true exactly
    for them; none of the three changes anything or can fail. *)
Theorem earlier_Keys_Len_Has_agree (ps : PersistentStorage) (fs : FS) (seed : nat → nat) :
  (ThreadSafe ps = true → mutex ps = false) →
  ∃ keys,
    earlier.Keys seed (ps, fs) = Returned keys (ps, fs) ∧
    NoDup keys ∧
    (∀ k, k ∈ keys ↔ is_Some (cache ps !! k)) ∧
    earlier.Len (ps, fs) = Returned (Z.of_nat (length keys)) (ps, fs) ∧
    ∀ k, earlier.Has k (ps, fs) = Returned (bool_decide (k ∈ keys)) (ps, fs).
Proof.
  intros Hfree. exists ((range seed (cache ps)).*1).
  assert ((range seed (cache ps)).*1 ≡ₚ (map_to_list (cache ps)).*1) as Hperm
    by (by rewrite range_Permutation).
  assert (∀ k, k ∈ (range seed (cache ps)).*1 ↔ is_Some (cache ps !! k)) as Hin.
  { intros k. rewrite Hperm. rewrite list_elem_of_fmap. split.
    - intros ([k' v] & -> & Hkv%elem_of_map_to_list). by eexists.
    - intros [v Hv]. exists (k, v). split; [done|]. by apply elem_of_map_to_list. }
  split; [|split; [|split; [done|split]]].
  - unfold earlier.Keys, if_ThreadSafe_Lock_defer, mutex_Lock, earlier.Keys_body. simpl.
    destruct (ThreadSafe ps); [|by rewrite earlier_Keys_loop_lists].
    rewrite Hfree by done. simpl.
    by rewrite earlier_Keys_loop_lists, with_mutex_unlock by auto.
  - rewrite Hperm. apply NoDup_fst_map_to_list.
  - unfold earlier.Len. simpl. rewrite Hperm, length_fmap, length_map_to_list. done.
  - intros k. unfold earlier.Has, if_ThreadSafe_Lock_defer, mutex_Lock, earlier.Has_body.
    simpl.
    assert (bool_decide (k ∈ (range seed (cache ps)).*1)
            = match cache ps !! k with Some _ => true | None => false end) as ->.
    { destruct (cache ps !! k) eqn:Hk.
      - apply bool_decide_eq_true, Hin. by eexists.
      - apply bool_decide_eq_false. rewrite Hin, Hk. by intros [? [=]]. }
    destruct (ThreadSafe ps).
    + rewrite Hfree by done. simpl. destruct (cache ps !! k); simpl;
        by rewrite with_mutex_unlock by auto.
    + by destruct (cache ps !! k).
Qed.

End earlier_properties.

Lemma earlier_Keys_Len_Has_agree_witness :
  ∃ keys,
    earlier.Keys (λ _, 0%nat)
      (with_cache (NewInMemory "c") {[ "a" := Some (Vint 1); "b" := Some (Vint 2) ]},
       (∅ : MemFS.fs))
    = Returned keys
        (with_cache (NewInMemory "c") {[ "a" := Some (Vint 1); "b" := Some (Vint 2) ]}, ∅)
    ∧ NoDup keys ∧ length keys = 2%nat.
Proof.
  assert (ThreadSafe (with_cache (NewInMemory "c")
                        {[ "a" := Some (Vint 1); "b" := Some (Vint 2) ]}) = true
          → mutex (with_cache (NewInMemory "c")
                        {[ "a" := Some (Vint 1); "b" := Some (Vint 2) ]}) = false) as Hfree
    by done.
  destruct (earlier_Keys_Len_Has_agree _ (∅ : MemFS.fs) (λ _, 0%nat) Hfree)
    as (keys & Hkeys & Hdup & _ & Hlen & _).
  exists keys. split; [exact Hkeys|]. split; [exact Hdup|].
  unfold earlier.Len in Hlen. injection Hlen as Hlen.
  apply Nat2Z.inj. rewrite <-Hlen. reflexivity.
Defined.

(** ** Namespaces in one directory *)

Lemma HasPrefix_app_l s a b : strings.HasPrefix s (a +:+ b) = true → strings.HasPrefix s a = true.
Proof.
  revert s. induction a as [|c a IH]; intros s; simpl; [by rewrite HasPrefix_nil|].
  destruct s as [|d s]; simpl; [done|]. destruct (Ascii.eqb c d); [apply IH|done].
Qed.

(** X18. Namespaces are told apart by a prefix of the file name only: the
    cache file of key [key] in the namespace [n_s] is the cache file of
    key [s_key] in the namespace [n], so in one directory the scan of
    [Has] for the one finds the file of the other, and every file that
    [Len] and [Keys] of [n_s] take for a cache file, those of [n] take for
    one too. *)
Theorem namespaces_with_a_common_prefix_share_files (ps ps' : PersistentStorage)
    (s key : string) :
  name ps' = name ps +:+ "_" +:+ s →
  getCacheFilename ps' key = getCacheFilename ps (s +:+ "_" +:+ key) ∧
  (∀ files, Has_loop ps' key files = Has_loop ps (s +:+ "_" +:+ key) files) ∧
  (∀ file, is_cache_file ps' file = true → is_cache_file ps file = true).
Proof.
  intros Hname.
  assert (∀ k, getCacheFilename ps' k = getCacheFilename ps (s +:+ "_" +:+ k)) as Hfile.
  { intros k. unfold getCacheFilename. rewrite Hname. by rewrite !append_assoc. }
  split; [done|]. split.
  - intros files. induction files as [|file files IH]; simpl; [done|].
    by rewrite IH, Hfile.
  - intros file. unfold is_cache_file. rewrite Hname.
    intros [Hpre Hsuf]%andb_true_iff. rewrite Hsuf, andb_true_r.
    apply (HasPrefix_app_l _ _ (s +:+ "_")).
    rewrite !append_assoc in Hpre. by rewrite !append_assoc.
Qed.

(** The namespaces [c] and [c_x]: the file of key [a] of [c_x] is the file
    of key [x_a] of [c]. *)
Lemma namespaces_with_a_common_prefix_share_files_witness :
  getCacheFilename (New "d" "c_x") "a" = getCacheFilename (New "d" "c") "x_a"
  ∧ getCacheFilename (New "d" "c") "x_a" = "c_x_a.pcache".
Proof.
  destruct (namespaces_with_a_common_prefix_share_files
              (New "d" "c") (New "d" "c_x") "x" "a" eq_refl) as (Hfile & _ & _).
  split; [exact Hfile|reflexivity].
Defined.

(** ** Eviction and the files *)

Section eviction.
Context {FS : Type} `{!Env FS}.

Lemma saveToDisk_same ps ps2 key value (fs : FS) :
  inMemory ps = inMemory ps2 → path ps = path ps2 → name ps = name ps2 →
  saveToDisk ps key value fs = saveToDisk ps2 key value fs.
Proof.
  intros Hmem Hpath Hname. unfold saveToDisk, getCachePath, getCacheFilename, errorf.
  by rewrite Hmem, Hpath, Hname.
Qed.

(** X19. Eviction does not touch the files: the error a [Set] returns and
    the file system it leaves are the same whatever the limit
    [MaxMemItems] and whatever entry the loop that evicts starts at. *)
Theorem eviction_leaves_files_alone (ps : PersistentStorage) (fs : FS) (key : string)
    (value : any) (seed : nat → nat) (err : error) (ps' : PersistentStorage) (fs' : FS)
    (limit : Z) (seed2 : nat → nat) :
  Set_ key value seed (ps, fs) = Returned err (ps', fs') →
  ∃ ps'', Set_ key value seed2 (with_MaxMemItems ps limit, fs) = Returned err (ps'', fs').
Proof.
  intros (Hts & _ & it & Hit & Hset)%Set_step.
  rewrite Set_unguarded by done. unfold Set_body. rewrite Hit.
  unfold set in *. simpl in *.
  rewrite (saveToDisk_same
             (with_cache (with_MaxMemItems ps limit) (<[key:=it]> (cache ps)))
             (with_cache ps (<[key:=it]> (cache ps)))) by done.
  destruct (if SaveToDiskOnSet ps then _ else _) as [[e|] fs1].
  - injection Hset as <- _ <-. by eexists.
  - assert (err = None ∧ fs1 = fs') as [-> ->].
    { destruct (_ && _); [destruct (range _ _) as [|[? ?] ?]|]; by injection Hset. }
    clear Hset.
    destruct (_ && _); [destruct (range seed2 _) as [|[? ?] ?]|]; by eexists.
Qed.

End eviction.

(** The same [Set] with a limit of zero entries, which evicts at once. *)
Lemma eviction_leaves_files_alone_witness :
  ∃ ps' fs' ps'',
    Set_ "k" (Some (Vstring "v")) (λ _, 0%nat) (New "d" "c", (∅ : MemFS.fs))
    = Returned None (ps', fs')
    ∧ Set_ "k" (Some (Vstring "v")) (λ _, 1%nat) (with_MaxMemItems (New "d" "c") 0, ∅)
      = Returned None (ps'', fs').
Proof.
  assert (∃ ps' fs',
            Set_ "k" (Some (Vstring "v")) (λ _, 0%nat) (New "d" "c", (∅ : MemFS.fs))
            = Returned None (ps', fs')) as (ps' & fs' & Hcall)
    by (eexists _, _; reflexivity).
  destruct (eviction_leaves_files_alone _ _ _ _ _ _ _ _ 0%Z (λ _, 1%nat) Hcall)
    as [ps'' Hcall2].
  exists ps', fs', ps''. split; [exact Hcall|exact Hcall2].
Defined.
